(** * File decorators of pdlfs-common (include/pdlfs-common/env_files.h)

    A shallow embedding of the buffering and measuring file wrappers:
    [UnsafeBufferedWritableFile], [MeasuredWritableFile],
    [MeasuredSequentialFile] and the [Read] path of
    [WholeFileBufferedRandomAccessFile], followed by the properties the
    specification states about them. *)

From Stdlib Require Import ZArith List Lia Bool String.
From Stdlib Require Import Strings.Byte.
Import ListNotations.
Local Open Scope Z_scope.

(** ** Machine integers

    [uint64_t], [uint32_t] and [size_t] values are integers in [Z]; the
    result of every arithmetic operation the code performs on them is
    reduced modulo the width of its type. *)

Definition uint64_t (z : Z) : Z := z mod 2 ^ 64.
Definition uint32_t (z : Z) : Z := z mod 2 ^ 32.
Definition size_t (z : Z) : Z := z mod 2 ^ 64.

Definition in_uint64 (z : Z) : Prop := 0 <= z < 2 ^ 64.
Definition in_uint32 (z : Z) : Prop := 0 <= z < 2 ^ 32.

(** ** Byte strings

    Both [std::string] and [Slice] contents are lists of bytes.  [size] is
    [std::string::size] / [Slice::size]; a string that exists in memory is
    shorter than the address space, so sizes of strings and sums of the
    sizes of two live strings are taken without reduction. *)

Definition bytes : Type := list byte.
Definition size (b : bytes) : Z := Z.of_nat (List.length b).
Definition str (s : string) : bytes := list_byte_of_string s.

(** [Slice::remove_prefix(n)]: drops the first [n] bytes of the slice. *)
Definition remove_prefix (n : Z) (s : bytes) : bytes := skipn (Z.to_nat n) s.

(** The [n] bytes starting at [s.data()]. *)
Definition prefix (n : Z) (s : bytes) : bytes := firstn (Z.to_nat n) s.

(** ** Status *)

(** Modelled from the spec: the codes of the [Status] class
    (pdlfs-common/status.h is not among the sources).  Section 7 of the
    specification names the failure kinds that reach this layer: an I/O
    failure of the base file, and the disconnected condition of a
    measuring decorator. *)
Inductive Code : Type := kIOError | kDisconnected.

(** Modelled from the spec: the [Status] class itself.  A status is
    success or a failure with its code and message; a default-constructed
    [Status] is success. *)
Inductive Status : Type :=
| OK
| Failure (code : Code) (msg : bytes).

Definition ok (s : Status) : bool :=
  match s with OK => true | Failure _ _ => false end.

(** [Status::Disconnected(Slice())] *)
Definition Disconnected : Status := Failure kDisconnected [].
Definition IOError (msg : bytes) : Status := Failure kIOError msg.

(** ** Base file interfaces *)

(** Modelled from the spec: the [WritableFile] interface
    (pdlfs-common/env.h is not among the sources), the sequential writer
    of section 3: [Append(bytes)], [Flush()], [Sync()], [Close()], each
    yielding a result.  A base file is any state type with these methods;
    a method returns its status and the state of the file after the
    call. *)
Class WritableFile (W : Type) : Type := {
  wf_Append : bytes -> W -> Status * W;
  wf_Flush : W -> Status * W;
  wf_Sync : W -> Status * W;
  wf_Close : W -> Status * W
}.

(** Modelled from the spec: the [SequentialFile] interface (also of
    env.h), the sequential reader of section 3 with [Read] and [Skip].
    [Read(n, result, scratch)] receives the slice [*result] as the caller
    left it and returns it as the callee leaves it. *)
Class SequentialFile (F : Type) : Type := {
  sf_Read : Z -> bytes -> F -> Status * bytes * F;
  sf_Skip : Z -> F -> Status * F
}.

(** Calls made on a wrapped writer, with the status each returned. *)
Inductive Call : Type :=
| CAppend (data : bytes)
| CFlush
| CSync
| CClose.

Definition Event : Type := (Call * Status)%type.

(** Bytes that the wrapped writer accepted, in call order. *)
Fixpoint handed_bytes (es : list Event) : bytes :=
  match es with
  | [] => []
  | (CAppend d, OK) :: es' => d ++ handed_bytes es'
  | _ :: es' => handed_bytes es'
  end.

Definition handed (es : list Event) : Z := size (handed_bytes es).

(** ** Outcomes of a call

    A call returns, or runs into undefined behaviour or a failed [assert],
    or does not return within the fuel given to its loop. *)

Inductive Fault : Type := NullDeref | AssertFailed | OutOfBounds.

Inductive Outcome (A : Type) : Type :=
| Returns (a : A)
| Faults (f : Fault)
| OutOfFuel.
Arguments Returns {A} a.
Arguments Faults {A} f.
Arguments OutOfFuel {A}.

(** ** A scripted writer, used as the wrapped file in concrete scenarios

    Every call takes the next status off the script (success once the
    script is exhausted); accepted bytes accumulate in [written]. *)

Record ScriptedFile : Type := mkScripted {
  script : list Status;
  written : bytes
}.

Definition next_status (w : ScriptedFile) : Status * ScriptedFile :=
  match script w with
  | [] => (OK, w)
  | s :: rest => (s, mkScripted rest (written w))
  end.

#[global] Instance ScriptedFile_WritableFile : WritableFile ScriptedFile := {
  wf_Append data w :=
    let (s, w') := next_status w in
    (s, if ok s then mkScripted (script w') (written w' ++ data) else w');
  wf_Flush w := next_status w;
  wf_Sync w := next_status w;
  wf_Close w := next_status w
}.

(** A writer that accepts everything. *)
Definition reliable : ScriptedFile := mkScripted [] [].

(** A wrapped writer whose first call fails. *)
Definition fails_once : ScriptedFile := mkScripted [IOError []] [].

(** A wrapped writer whose second call fails. *)
Definition fails_second : ScriptedFile := mkScripted [OK; IOError []] [].

(** ** UnsafeBufferedWritableFile *)

Module UnsafeBufferedWritableFile.
Section WithBase.
Context {W : Type} `{WritableFile W}.

Record t : Type := mk_t {
  base_ : option W;
  offset_ : Z;          (* uint64_t: number of bytes flushed *)
  max_buf_size_ : Z;    (* const size_t *)
  buf_ : bytes
}.

Definition set_base (b : option W) (f : t) : t :=
  mk_t b (offset_ f) (max_buf_size_ f) (buf_ f).
Definition set_offset (o : Z) (f : t) : t :=
  mk_t (base_ f) o (max_buf_size_ f) (buf_ f).
Definition set_buf (b : bytes) (f : t) : t :=
  mk_t (base_ f) (offset_ f) (max_buf_size_ f) b.

(** Member functions run in a state monad over the object; next to the
    result they yield the calls made on the wrapped writer. *)
Definition M (A : Type) : Type := t -> Outcome (A * t * list Event).

Definition ret {A} (a : A) : M A := fun f => Returns (a, f, []).

Definition bind {A B} (m : M A) (k : A -> M B) : M B := fun f =>
  match m f with
  | Returns (a, f1, e1) =>
      match k a f1 with
      | Returns (b, f2, e2) => Returns (b, f2, e1 ++ e2)
      | Faults x => Faults x
      | OutOfFuel => OutOfFuel
      end
  | Faults x => Faults x
  | OutOfFuel => OutOfFuel
  end.

Definition get : M t := fun f => Returns (f, f, []).
Definition modify (g : t -> t) : M unit := fun f => Returns (tt, g f, []).
Definition fault {A} (x : Fault) : M A := fun _ => Faults x.
Definition diverge {A} : M A := fun _ => OutOfFuel.

Definition assert (b : bool) : M unit :=
  if b then ret tt else fault AssertFailed.

Notation "x <- c1 ;; c2" := (bind c1 (fun x => c2))
  (at level 61, c1 at next level, right associativity).
Notation "c1 ;; c2" := (bind c1 (fun _ => c2))
  (at level 61, right associativity).

(** [base_->method(...)]: dereferences [base_], runs the method of the
    wrapped writer and records the call. *)
Definition call_base (c : Call) (method : W -> Status * W) : M Status :=
  fun f =>
    match base_ f with
    | None => Faults NullDeref
    | Some w =>
        let (s, w') := method w in
        Returns (s, set_base (Some w') f, [(c, s)])
    end.

(** [buf_.append(src.data(), n)]: reads [n] bytes starting at the first
    byte of [src]. *)
Definition buf_append (src : bytes) (n : Z) : M unit := fun f =>
  if n >? size src then Faults OutOfBounds
  else Returns (tt, set_buf (buf_ f ++ prefix n src) f, []).

(** Constructor: [UnsafeBufferedWritableFile(base, buf_size)] *)
Definition make (base : option W) (buf_size : Z) : t :=
  mk_t base 0 buf_size [].

(** [buffer_store()] reads nothing and changes nothing by itself; what a
    caller does to the string through the pointer is outside the class. *)
Definition buffer_store (f : t) : bytes := buf_ f.

Definition EmptyBuffer : M Status :=
  f <- get ;;
  let buf_size := size (buf_ f) in
  assert (buf_size <=? max_buf_size_ f) ;;
  if negb (buf_size =? 0) then
    status <- call_base (CAppend (buf_ f)) (wf_Append (buf_ f)) ;;
    if ok status then
      modify (set_offset (uint64_t (offset_ f + buf_size))) ;;
      modify (set_buf []) ;;
      ret status
    else ret status
  else ret OK.

(** The [while] loop of [Append]; it yields the status [s] and the slice
    [chunk] as they are when the loop is left.  One unit of fuel pays for
    one iteration. *)
Fixpoint Append_loop (fuel : nat) (s : Status) (chunk : bytes)
  : M (Status * bytes) :=
  f <- get ;;
  if size (buf_ f) + size chunk >=? max_buf_size_ f then
    match fuel with
    | O => diverge
    | S fuel' =>
        let left := size_t (max_buf_size_ f - size (buf_ f)) in
        buf_append chunk left ;;
        s' <- EmptyBuffer ;;
        if ok s' then Append_loop fuel' s' (remove_prefix left chunk)
        else ret (s', chunk)
    end
  else ret (s, chunk).

Definition Append_fuel (fuel : nat) (data : bytes) : M Status :=
  r <- Append_loop fuel OK data ;;
  let (s, chunk) := r : Status * bytes in
  if negb (ok s) then ret s
  else if negb (size chunk =? 0) then
    buf_append chunk (size chunk) ;;
    f <- get ;;
    assert (size (buf_ f) <=? max_buf_size_ f) ;;
    ret s
  else ret s.

(** [Append(data)].  The loop is given two iterations more than [data] has
    bytes; [Append_adequate] below shows that a loop which has not returned
    by then never returns. *)
Definition Append (data : bytes) : M Status :=
  Append_fuel (S (S (List.length data))) data.

Definition SyncBefore (offset : Z) : M Status :=
  f <- get ;;
  if offset_ f >=? offset then ret OK
  else EmptyBuffer.

Definition Sync : M Status :=
  s <- EmptyBuffer ;;
  if ok s then call_base CSync wf_Sync
  else ret s.

Definition Flush : M Status := ret OK.

Definition Close : M Status :=
  s <- EmptyBuffer ;;
  call_base CClose wf_Close ;;
  modify (set_base None) ;;
  ret s.

(** Call sequences *)
Inductive Op : Type :=
| OpAppend (data : bytes)
| OpSyncBefore (offset : Z)
| OpSync
| OpFlush
| OpEmptyBuffer
| OpClose.

Definition exec (o : Op) : M Status :=
  match o with
  | OpAppend data => Append data
  | OpSyncBefore offset => SyncBefore offset
  | OpSync => Sync
  | OpFlush => Flush
  | OpEmptyBuffer => EmptyBuffer
  | OpClose => Close
  end.

Fixpoint run (ops : list Op) : M (list Status) :=
  match ops with
  | [] => ret []
  | o :: ops' =>
      s <- exec o ;;
      ss <- run ops' ;;
      ret (s :: ss)
  end.

Definition is_Flush (o : Op) : bool :=
  match o with OpFlush => true | _ => false end.

(** Destructor: closes and deletes the wrapped writer, unless [Close] has
    already done so and left [base_] NULL.  The buffer is not handed over. *)
Definition Destructor : M unit :=
  f <- get ;;
  match base_ f with
  | Some _ => call_base CClose wf_Close ;; ret tt
  | None => ret tt
  end.

(** The bytes passed to the [Append] calls of a call sequence, in order. *)
Fixpoint appended (ops : list Op) : bytes :=
  match ops with
  | [] => []
  | OpAppend data :: ops' => data ++ appended ops'
  | _ :: ops' => appended ops'
  end.

(** Whether every [Append] of a call sequence returned success, given the
    statuses the calls returned. *)
Fixpoint appends_succeeded (ops : list Op) (ss : list Status) : bool :=
  match ops, ss with
  | OpAppend _ :: ops', s :: ss' => ok s && appends_succeeded ops' ss'
  | _ :: ops', _ :: ss' => appends_succeeded ops' ss'
  | _, _ => true
  end.

(** A call sequence with its [Flush] calls taken out. *)
Definition without_Flush (ops : list Op) : list Op :=
  filter (fun o => negb (is_Flush o)) ops.

(** What is left of an outcome when the returned value is dropped: the
    object, and the calls the wrapped writer received. *)
Definition final {A : Type} (r : Outcome (A * t * list Event))
  : Outcome (t * list Event) :=
  match r with
  | Returns (_, f, e) => Returns (f, e)
  | Faults x => Faults x
  | OutOfFuel => OutOfFuel
  end.

(** Prefixing the calls of an earlier step to an outcome. *)
Definition after {A : Type} (e : list Event)
  (r : Outcome (A * t * list Event)) : Outcome (A * t * list Event) :=
  match r with
  | Returns (a, f, e') => Returns (a, f, e ++ e')
  | Faults x => Faults x
  | OutOfFuel => OutOfFuel
  end.

(** The state invariant of the class: the capacity is a [size_t], the
    offset a [uint64_t], and the buffer is within the capacity. *)
Definition Inv (f : t) : Prop :=
  in_uint64 (max_buf_size_ f) /\ in_uint64 (offset_ f) /\
  size (buf_ f) <= max_buf_size_ f.

(** The object after a successful hand-off of the buffer. *)
Definition flushed (f : t) (w' : W) : t :=
  mk_t (Some w') (uint64_t (offset_ f + size (buf_ f))) (max_buf_size_ f) [].

(** Iterations of the loop of [Append] still to come are bounded by the
    bytes left in the chunk, plus one when the buffer must be emptied
    before any is consumed. *)
Definition iterations_bound (chunk : bytes) (f : t) : nat :=
  (List.length chunk + match buf_ f with [] => 0 | _ => 1 end)%nat.

(** An outcome that is no fault and, when the call returned, has kept the
    wrapped writer attached. *)
Definition sound {A : Type} (r : Outcome (A * t * list Event)) : Prop :=
  match r with
  | Returns (_, f', _) => base_ f' <> None
  | Faults _ => False
  | OutOfFuel => True
  end.

End WithBase.
Arguments t W : clear implicits.
Arguments M W A : clear implicits.
End UnsafeBufferedWritableFile.

(** ** MeasuredWritableFile *)

Module MeasuredWritableFile.
Section WithBase.
Context {W : Type} `{WritableFile W}.

Record t : Type := mk_t {
  base_ : option W;     (* weak reference, NULL when absent *)
  num_syncs_ : Z;       (* uint32_t *)
  num_flushes_ : Z;     (* uint32_t *)
  bytes_ : Z;           (* uint64_t *)
  ops_ : Z              (* uint64_t *)
}.

Definition set_base (b : option W) (m : t) : t :=
  mk_t b (num_syncs_ m) (num_flushes_ m) (bytes_ m) (ops_ m).

(** The counters of a decorator, in declaration order. *)
Definition counters (m : t) : Z * Z * Z * Z :=
  (num_syncs_ m, num_flushes_ m, bytes_ m, ops_ m).

Definition Reset (base : option W) (m : t) : t :=
  mk_t base 0 0 0 0.

(** Constructor: [Reset(base)] on the fresh object. *)
Definition make (base : option W) : t := mk_t base 0 0 0 0.

Definition Flush (m : t) : Status * t :=
  match base_ m with
  | None => (Disconnected, m)
  | Some w =>
      let (status, w') := wf_Flush w in
      let m' := set_base (Some w') m in
      if ok status then
        (status, mk_t (base_ m') (num_syncs_ m')
                      (uint32_t (num_flushes_ m' + 1)) (bytes_ m') (ops_ m'))
      else (status, m')
  end.

Definition Sync (m : t) : Status * t :=
  match base_ m with
  | None => (Disconnected, m)
  | Some w =>
      let (status, w') := wf_Sync w in
      let m' := set_base (Some w') m in
      if ok status then
        (status, mk_t (base_ m') (uint32_t (num_syncs_ m' + 1))
                      (num_flushes_ m') (bytes_ m') (ops_ m'))
      else (status, m')
  end.

Definition NumFlushes (m : t) : Z := num_flushes_ m.
Definition NumSyncs (m : t) : Z := num_syncs_ m.

Definition Append (data : bytes) (m : t) : Status * t :=
  match base_ m with
  | None => (Disconnected, m)
  | Some w =>
      let (status, w') := wf_Append data w in
      let m' := set_base (Some w') m in
      if ok status then
        (status, mk_t (base_ m') (num_syncs_ m') (num_flushes_ m')
                      (uint64_t (bytes_ m' + size data))
                      (uint64_t (ops_ m' + 1)))
      else (status, m')
  end.

Definition TotalBytes (m : t) : Z := bytes_ m.
Definition TotalOps (m : t) : Z := ops_ m.

Definition Close (m : t) : Status * t :=
  match base_ m with
  | Some w =>
      let (status, _) := wf_Close w in
      (status, set_base None m)
  | None => (OK, m)
  end.

End WithBase.
Arguments t W : clear implicits.

(** The decorator is itself a writable file, so decorators stack. *)
#[global] Instance Measured_WritableFile {W : Type} `{WritableFile W}
  : WritableFile (t W) := {
  wf_Append := Append;
  wf_Flush := Flush;
  wf_Sync := Sync;
  wf_Close := Close
}.
End MeasuredWritableFile.

(** ** MeasuredSequentialFile *)

Module MeasuredSequentialFile.
Section WithBase.
Context {F : Type} `{SequentialFile F}.

Record t : Type := mk_t {
  base_ : option F;     (* weak reference, NULL when absent *)
  bytes_ : Z;           (* uint64_t *)
  ops_ : Z              (* uint64_t *)
}.

Definition set_base (b : option F) (m : t) : t :=
  mk_t b (bytes_ m) (ops_ m).

Definition counters (m : t) : Z * Z := (bytes_ m, ops_ m).

Definition Reset (base : option F) (m : t) : t := mk_t base 0 0.

Definition make (base : option F) : t := mk_t base 0 0.

(** [Read(n, result, scratch)]: [result] is the slice the caller passes in;
    the slice left in [*result] is returned next to the status. *)
Definition Read (n : Z) (result : bytes) (m : t) : Status * bytes * t :=
  match base_ m with
  | None => (Disconnected, result, m)
  | Some b =>
      let '(status, result', b') := sf_Read n result b in
      let m' := set_base (Some b') m in
      if ok status then
        (status, result',
         mk_t (base_ m') (uint64_t (bytes_ m' + size result'))
              (uint64_t (ops_ m' + 1)))
      else (status, result', m')
  end.

Definition Skip (n : Z) (m : t) : Status * t :=
  match base_ m with
  | None => (Disconnected, m)
  | Some b =>
      let (status, b') := sf_Skip n b in
      (status, set_base (Some b') m)
  end.

Definition TotalBytes (m : t) : Z := bytes_ m.
Definition TotalOps (m : t) : Z := ops_ m.

End WithBase.
Arguments t F : clear implicits.

(** The decorator is itself a sequential file. *)
#[global] Instance Measured_SequentialFile {F : Type} `{SequentialFile F}
  : SequentialFile (t F) := {
  sf_Read := Read;
  sf_Skip := Skip
}.
End MeasuredSequentialFile.

(** A sequential source over a byte string, used in concrete scenarios:
    [Read(n)] returns at most [n] of the remaining bytes; a source whose
    [broken] flag is set fails every call. *)

Record StringSource : Type := mkSource {
  remaining : bytes;
  broken : bool
}.

#[global] Instance StringSource_SequentialFile : SequentialFile StringSource := {
  sf_Read n result src :=
    if broken src then (IOError [], result, src)
    else (OK, prefix n (remaining src),
          mkSource (remove_prefix n (remaining src)) false);
  sf_Skip n src :=
    if broken src then (IOError [], src)
    else (OK, mkSource (remove_prefix n (remaining src)) false)
}.

(** ** WholeFileBufferedRandomAccessFile *)

Module WholeFileBufferedRandomAccessFile.
Section WithBase.
Context {F : Type} `{SequentialFile F}.

Record t : Type := mk_t {
  base_ : option F;
  max_buf_size_ : Z;    (* const size_t *)
  io_size_ : Z;         (* const size_t *)
  buf_size_ : Z;        (* size_t *)
  buf_ : bytes          (* char[max_buf_size_] *)
}.

(** Constructor.  [new char[max_buf_size_]] leaves the array
    uninitialised; [mem] stands for whatever the allocation holds. *)
Definition make (base : option F) (buf_size io_size : Z) (mem : bytes) : t :=
  mk_t base buf_size io_size 0 mem.

(** A [Slice] result of [Read]: the default-constructed empty slice, or
    [n] bytes of [buf_] starting at index [start]. *)
Inductive View : Type :=
| EmptySlice
| BufSlice (start n : Z).

Definition view_size (v : View) : Z :=
  match v with EmptySlice => 0 | BufSlice _ n => n end.

Definition view_bytes (f : t) (v : View) : bytes :=
  match v with
  | EmptySlice => []
  | BufSlice start n => prefix n (remove_prefix start (buf_ f))
  end.

(** One past the last index of [buf_] that the view covers. *)
Definition view_end (v : View) : Z :=
  match v with EmptySlice => 0 | BufSlice start n => start + n end.

Definition Read (offset n : Z) (f : t) : Status * View :=
  if offset <? buf_size_ f then
    let n' := if n >? size_t (buf_size_ f - offset)
              then size_t (buf_size_ f - offset) else n in
    (OK, BufSlice offset n')
  else (OK, EmptySlice).

End WithBase.
Arguments t F : clear implicits.
End WholeFileBufferedRandomAccessFile.

(** ** Call sequences on the base interfaces *)

Inductive WOp : Type :=
| WAppend (data : bytes)
| WFlush
| WSync.

Definition wf_exec {W : Type} `{WritableFile W} (o : WOp) (w : W)
  : Status * W :=
  match o with
  | WAppend data => wf_Append data w
  | WFlush => wf_Flush w
  | WSync => wf_Sync w
  end.

Fixpoint wf_run {W : Type} `{WritableFile W} (ops : list WOp) (w : W)
  : list Status * W :=
  match ops with
  | [] => ([], w)
  | o :: ops' =>
      let (s, w1) := wf_exec o w in
      let (ss, w2) := wf_run ops' w1 in
      (s :: ss, w2)
  end.

(** The sum of [weight o] over the calls of a sequence that returned
    success. *)
Fixpoint total {O : Type} (weight : O -> Z) (ops : list O)
  (ss : list Status) : Z :=
  match ops, ss with
  | o :: ops', s :: ss' =>
      (if ok s then weight o else 0) + total weight ops' ss'
  | _, _ => 0
  end.

Definition is_WAppend (o : WOp) : Z :=
  match o with WAppend _ => 1 | _ => 0 end.
Definition is_WFlush (o : WOp) : Z :=
  match o with WFlush => 1 | _ => 0 end.
Definition is_WSync (o : WOp) : Z :=
  match o with WSync => 1 | _ => 0 end.
Definition WAppend_size (o : WOp) : Z :=
  match o with WAppend data => size data | _ => 0 end.

Inductive SOp : Type :=
| SRead (n : Z)
| SSkip (n : Z).

(** A sequence of reads and skips; [result] is the caller's slice, passed
    to every [Read] as the previous call left it.  Next to each status the
    run yields that slice as it is after the call. *)
Fixpoint sf_run {F : Type} `{SequentialFile F} (ops : list SOp)
  (result : bytes) (src : F) : list (Status * bytes) * F :=
  match ops with
  | [] => ([], src)
  | SRead n :: ops' =>
      let '(s, result', src1) := sf_Read n result src in
      let (rs, src2) := sf_run ops' result' src1 in
      ((s, result') :: rs, src2)
  | SSkip n :: ops' =>
      let (s, src1) := sf_Skip n src in
      let (rs, src2) := sf_run ops' result src1 in
      ((s, result) :: rs, src2)
  end.

(** Bytes and number of the reads of a sequence that returned success. *)
Fixpoint read_bytes (ops : list SOp) (rs : list (Status * bytes)) : Z :=
  match ops, rs with
  | SRead _ :: ops', (s, r) :: rs' =>
      (if ok s then size r else 0) + read_bytes ops' rs'
  | _ :: ops', _ :: rs' => read_bytes ops' rs'
  | _, _ => 0
  end.

Fixpoint read_ops (ops : list SOp) (rs : list (Status * bytes)) : Z :=
  match ops, rs with
  | SRead _ :: ops', (s, _) :: rs' =>
      (if ok s then 1 else 0) + read_ops ops' rs'
  | _ :: ops', _ :: rs' => read_ops ops' rs'
  | _, _ => 0
  end.

(** ** Events on a wrapped writer *)

(** The method of the wrapped writer that a recorded call stands for. *)
Definition invoke {W : Type} `{WritableFile W} (c : Call) : W -> Status * W :=
  match c with
  | CAppend data => wf_Append data
  | CFlush => wf_Flush
  | CSync => wf_Sync
  | CClose => wf_Close
  end.

(** [replays es w w']: making the calls of [es] on the writer [w], in
    order, returns the recorded statuses and leaves the writer [w']. *)
Inductive replays {W : Type} `{WritableFile W} : list Event -> W -> W -> Prop :=
| replays_nil w : replays [] w w
| replays_cons c s es w w1 w2 :
    invoke c w = (s, w1) -> replays es w1 w2 ->
    replays ((c, s) :: es) w w2.

Definition is_CClose (e : Event) : bool :=
  match e with (CClose, _) => true | _ => false end.
Definition is_CFlush (e : Event) : bool :=
  match e with (CFlush, _) => true | _ => false end.
Definition is_ok_CAppend (e : Event) : bool :=
  match e with (CAppend _, s) => ok s | _ => false end.
Definition is_ok_CSync (e : Event) : bool :=
  match e with (CSync, s) => ok s | _ => false end.

(** Number of events of a kind. *)
Definition count (p : Event -> bool) (es : list Event) : Z :=
  Z.of_nat (List.length (filter p es)).

(** The calls a member function other than [Close] may make. *)
Definition hand_off_or_sync (e : Event) : Prop :=
  is_CClose e = false /\ is_CFlush e = false.

(** A call that hands over exactly [n] bytes. *)
Definition hands_over (n : Z) (e : Event) : Prop :=
  exists d st, e = (CAppend d, st) /\ size d = n.

(** What a returning call of [UnsafeBufferedWritableFile] did to the
    attached writer: nothing when there is none; otherwise exactly the
    recorded calls, and the writer stays attached. *)
Definition tracks {W : Type} `{WritableFile W} {A : Type}
  (f : UnsafeBufferedWritableFile.t W)
  (r : Outcome (A * UnsafeBufferedWritableFile.t W * list Event)) : Prop :=
  match r with
  | Returns (_, f', es) =>
      match UnsafeBufferedWritableFile.base_ f with
      | None => UnsafeBufferedWritableFile.base_ f' = None /\ es = []
      | Some w =>
          exists w', UnsafeBufferedWritableFile.base_ f' = Some w' /\
                     replays es w w' /\ Forall hand_off_or_sync es
      end
  | _ => True
  end.

(** ** PosixFio::ToFileName (src/posix_fio.h) *)

Module PosixFio.

(** The character [sprintf] prints for one hexadecimal digit under [%X]. *)
Definition hex_digit (d : N) : byte :=
  match d with
  | 0%N => "0" | 1%N => "1" | 2%N => "2" | 3%N => "3"
  | 4%N => "4" | 5%N => "5" | 6%N => "6" | 7%N => "7"
  | 8%N => "8" | 9%N => "9" | 10%N => "A" | 11%N => "B"
  | 12%N => "C" | 13%N => "D" | 14%N => "E" | _ => "F"
  end%byte.

(** What [sprintf(p, "%02X", (unsigned char)c)] prints: two digits. *)
Definition format_02X (c : byte) : bytes :=
  [hex_digit (Byte.to_N c / 16); hex_digit (Byte.to_N c mod 16)].

(** [sprintf(tmp + p, text)]: writes [text] and the terminating NUL into
    the array; a write that runs past the end of the array is a fault. *)
Definition sprintf (tmp : bytes) (p : nat) (text : bytes) : Outcome bytes :=
  if (p + List.length text + 1 <=? List.length tmp)%nat then
    Returns (firstn p tmp ++ text ++ [x00] ++
             skipn (p + List.length text + 1) tmp)
  else Faults OutOfBounds.

(** The [for] loop: one [sprintf] per byte of the key prefix, [p += 2]. *)
Fixpoint ToFileName_loop (key_prefix : bytes) (p : nat) (tmp : bytes)
  : Outcome bytes :=
  match key_prefix with
  | [] => Returns tmp
  | c :: rest =>
      match sprintf tmp p (format_02X c) with
      | Returns tmp' => ToFileName_loop rest (p + 2) tmp'
      | Faults x => Faults x
      | OutOfFuel => OutOfFuel
      end
  end.

(** [std::string(tmp)]: the characters before the first NUL. *)
Fixpoint c_str (tmp : bytes) : bytes :=
  match tmp with
  | [] => []
  | c :: rest => if Byte.eqb c x00 then [] else c :: c_str rest
  end.

(** The size of [char tmp[200]]. *)
Definition tmp_size : nat := 200.

Section WithFentry.
(** [Fentry::ExtractUntypedKeyPrefix] is not among the sources; the
    function is taken as it comes. *)
Variable ExtractUntypedKeyPrefix : bytes -> bytes.

(** [ToFileName(encoding)]; [mem] is what the uninitialised array [tmp]
    holds on entry. *)
Definition ToFileName (mem : bytes) (encoding : bytes) : Outcome bytes :=
  let key_prefix := ExtractUntypedKeyPrefix encoding in
  match sprintf mem 0 (str "F_") with
  | Returns tmp =>
      match ToFileName_loop key_prefix 2 tmp with
      | Returns tmp' => Returns (c_str tmp')
      | Faults x => Faults x
      | OutOfFuel => OutOfFuel
      end
  | Faults x => Faults x
  | OutOfFuel => OutOfFuel
  end.

(** [root_ + "/" + ToFileName(fentry)], the path every method opens. *)
Definition fname (root_ : bytes) (mem : bytes) (fentry : bytes)
  : Outcome bytes :=
  match ToFileName mem fentry with
  | Returns name => Returns (root_ ++ str "/" ++ name)
  | Faults x => Faults x
  | OutOfFuel => OutOfFuel
  end.

End WithFentry.

(** The hexadecimal rendering of a byte string. *)
Definition hex (key : bytes) : bytes := flat_map format_02X key.

(** The value of a hexadecimal digit character. *)
Definition hex_value (c : byte) : N :=
  match c with
  | "0" => 0 | "1" => 1 | "2" => 2 | "3" => 3 | "4" => 4
  | "5" => 5 | "6" => 6 | "7" => 7 | "8" => 8 | "9" => 9
  | "A" => 10 | "B" => 11 | "C" => 12 | "D" => 13 | "E" => 14
  | _ => 15
  end%byte%N.

(** Reading a hexadecimal rendering back. *)
Fixpoint unhex (h : bytes) : bytes :=
  match h with
  | hi :: lo :: rest =>
      match Byte.of_N (16 * hex_value hi + hex_value lo) with
      | Some c => c :: unhex rest
      | None => []
      end
  | _ => []
  end.

(** No printed character is the NUL that ends a C string. *)
Definition printable (l : bytes) : Prop := Forall (fun c => c <> x00) l.

End PosixFio.

(** * Properties of UnsafeBufferedWritableFile *)

Module BufferedFacts.
Import UnsafeBufferedWritableFile.

Section WithBase.
Context {W : Type} `{WritableFile W}.
Implicit Types (f : t W) (data chunk : bytes) (s : Status).

Lemma size_nonneg (b : bytes) : 0 <= size b.
Proof. unfold size. lia. Qed.

Lemma size_nil_iff (b : bytes) : size b = 0 <-> b = [].
Proof.
  unfold size. split; intros E.
  - destruct b; [reflexivity | simpl in E; lia].
  - now subst.
Qed.

Lemma size_app (a b : bytes) : size (a ++ b) = size a + size b.
Proof. unfold size. rewrite length_app. lia. Qed.

Lemma uint64_small z : in_uint64 z -> uint64_t z = z.
Proof. unfold in_uint64, uint64_t. intros. now apply Z.mod_small. Qed.

Lemma uint64_range z : in_uint64 (uint64_t z).
Proof. unfold in_uint64, uint64_t. apply Z.mod_pos_bound. lia. Qed.

Lemma uint64_add_l a b : uint64_t (uint64_t a + b) = uint64_t (a + b).
Proof. unfold uint64_t. now rewrite Zplus_mod_idemp_l. Qed.

(** [EmptyBuffer], case by case. *)
Lemma EmptyBuffer_eq f :
  EmptyBuffer f =
  if size (buf_ f) <=? max_buf_size_ f then
    if size (buf_ f) =? 0 then Returns (OK, f, [])
    else match base_ f with
         | None => Faults NullDeref
         | Some w =>
             let (s, w') := wf_Append (buf_ f) w in
             Returns (s, (if ok s then flushed f w' else set_base (Some w') f),
                      [(CAppend (buf_ f), s)])
         end
  else Faults AssertFailed.
Proof.
  unfold EmptyBuffer, bind, get, assert, call_base, modify, ret, fault.
  destruct (size (buf_ f) <=? max_buf_size_ f); [|reflexivity].
  destruct (size (buf_ f) =? 0); simpl; [reflexivity|].
  destruct (base_ f) as [w|]; [|reflexivity].
  destruct (wf_Append (buf_ f) w) as [s w'].
  destruct (ok s); reflexivity.
Qed.

(** One iteration of the loop of [Append]. *)
Lemma Append_loop_eq fuel s chunk f :
  Append_loop fuel s chunk f =
  if size (buf_ f) + size chunk >=? max_buf_size_ f then
    match fuel with
    | O => OutOfFuel
    | S fuel' =>
        let left := size_t (max_buf_size_ f - size (buf_ f)) in
        if left >? size chunk then Faults OutOfBounds
        else
          match EmptyBuffer (set_buf (buf_ f ++ prefix left chunk) f) with
          | Returns (s', f', e) =>
              if ok s'
              then after e (Append_loop fuel' s' (remove_prefix left chunk) f')
              else Returns ((s', chunk), f', e)
          | Faults x => Faults x
          | OutOfFuel => OutOfFuel
          end
    end
  else Returns ((s, chunk), f, []).
Proof.
  destruct fuel; simpl; unfold bind, get, ret, diverge, buf_append;
    destruct (size (buf_ f) + size chunk >=? max_buf_size_ f); try reflexivity.
  cbv zeta.
  destruct (size_t (max_buf_size_ f - size (buf_ f)) >? size chunk);
    [reflexivity|].
  destruct (EmptyBuffer _) as [[[s' f'] e]| |]; try reflexivity.
  destruct (ok s'); simpl.
  - destruct (Append_loop _ _ _ _) as [[[r f''] e']| |]; reflexivity.
  - now rewrite app_nil_r.
Qed.

Lemma handed_bytes_app (e1 e2 : list Event) :
  handed_bytes (e1 ++ e2) = handed_bytes e1 ++ handed_bytes e2.
Proof.
  induction e1 as [|[c s] e1 IH]; simpl; [reflexivity|].
  destruct c; try assumption.
  destruct s; [|assumption].
  now rewrite IH, app_assoc.
Qed.

Lemma handed_app (e1 e2 : list Event) :
  handed (e1 ++ e2) = handed e1 + handed e2.
Proof. unfold handed. now rewrite handed_bytes_app, size_app. Qed.

Lemma handed_nonneg (e : list Event) : 0 <= handed e.
Proof. apply size_nonneg. Qed.

Lemma ok_true s : ok s = true -> s = OK.
Proof. destruct s; [reflexivity | discriminate]. Qed.

Lemma prefix_remove_prefix n chunk : prefix n chunk ++ remove_prefix n chunk = chunk.
Proof. apply firstn_skipn. Qed.

Lemma size_prefix n chunk : 0 <= n <= size chunk -> size (prefix n chunk) = n.
Proof.
  unfold size, prefix. intros Hn. rewrite length_firstn. lia.
Qed.

Lemma size_remove_prefix n chunk :
  0 <= n <= size chunk -> size (remove_prefix n chunk) = size chunk - n.
Proof.
  unfold size, remove_prefix. intros Hn. rewrite length_skipn. lia.
Qed.

(** What a returning [EmptyBuffer] has done. *)
Lemma EmptyBuffer_inv f s f' e :
  Inv f -> EmptyBuffer f = Returns (s, f', e) ->
  Inv f' /\ max_buf_size_ f' = max_buf_size_ f /\
  offset_ f' = uint64_t (offset_ f + handed e) /\
  (ok s = true -> buf_ f' = [] /\ handed_bytes e = buf_ f) /\
  (ok s = false ->
     buf_ f' = buf_ f /\ offset_ f' = offset_ f /\ buf_ f <> [] /\
     e = [(CAppend (buf_ f), s)] /\ exists w', base_ f' = Some w').
Proof.
  intros (Hmax & Hoff & Hbuf) E. rewrite EmptyBuffer_eq in E.
  destruct (size (buf_ f) <=? max_buf_size_ f); [|discriminate].
  destruct (size (buf_ f) =? 0) eqn:Hz.
  - injection E as <- <- <-. apply Z.eqb_eq, size_nil_iff in Hz.
    split; [now unfold Inv|]. split; [reflexivity|].
    split; [change (handed []) with 0;
            now rewrite Z.add_0_r, uint64_small|].
    split; [intros _; now rewrite Hz | discriminate].
  - apply Z.eqb_neq in Hz.
    destruct (base_ f) as [w|]; [|discriminate].
    destruct (wf_Append (buf_ f) w) as [s1 w'].
    injection E as <- <- <-. destruct s1 as [|c msg]; simpl.
    + split.
      { unfold Inv, flushed; simpl. split; [assumption|].
        split; [apply uint64_range | unfold in_uint64 in Hmax; unfold size; simpl; lia]. }
      split; [reflexivity|].
      split; [unfold handed; simpl; now rewrite app_nil_r|].
      split; [intros _; split; [reflexivity | apply app_nil_r] | discriminate].
    + split; [now unfold Inv|]. split; [reflexivity|].
      split; [change (handed [(CAppend (buf_ f), Failure c msg)]) with 0;
              now rewrite Z.add_0_r, uint64_small|].
      split; [discriminate|]. intros _.
      repeat split; try reflexivity.
      * intros C. apply Hz. now rewrite C.
      * now exists w'.
Qed.

Lemma geb_false a b : (a >=? b) = false -> a < b.
Proof. rewrite Z.geb_leb. apply Z.leb_gt. Qed.

Lemma geb_true a b : (a >=? b) = true -> b <= a.
Proof. rewrite Z.geb_leb. apply Z.leb_le. Qed.

Lemma gtb_false a b : (a >? b) = false -> a <= b.
Proof. rewrite Z.gtb_ltb. apply Z.ltb_ge. Qed.

Lemma left_exact f :
  Inv f -> size_t (max_buf_size_ f - size (buf_ f)) =
           max_buf_size_ f - size (buf_ f).
Proof.
  intros (Hmax & _ & Hbuf). pose proof (size_nonneg (buf_ f)).
  unfold size_t, in_uint64 in *. apply Z.mod_small. lia.
Qed.

(** What a returning loop of [Append] has done.  On success the bytes
    handed to the wrapped writer, the buffer and the rest of the chunk
    make up the old buffer and the chunk, in order; on failure the buffer
    is full and the bytes after those it holds are left over. *)
Lemma Append_loop_spec fuel : forall s chunk f s' chunk' f' es,
  Inv f -> ok s = true ->
  Append_loop fuel s chunk f = Returns ((s', chunk'), f', es) ->
  Inv f' /\ max_buf_size_ f' = max_buf_size_ f /\
  offset_ f' = uint64_t (offset_ f + handed es) /\
  (ok s' = true ->
     handed_bytes es ++ buf_ f' ++ chunk' = buf_ f ++ chunk /\
     size (buf_ f') + size chunk' < max_buf_size_ f) /\
  (ok s' = false ->
     size (buf_ f') = max_buf_size_ f /\ buf_ f' <> [] /\
     (exists w', base_ f' = Some w') /\
     exists consumed dropped es0,
       chunk = consumed ++ dropped /\
       handed_bytes es ++ buf_ f' = buf_ f ++ consumed /\
       es = es0 ++ [(CAppend (buf_ f'), s')]).
Proof.
  induction fuel as [|fuel IH]; intros s chunk f s' chunk' f' es HI Hs E;
    rewrite Append_loop_eq in E;
    destruct (size (buf_ f) + size chunk >=? max_buf_size_ f) eqn:Hc;
    try apply geb_false in Hc.
  - discriminate.
  - injection E as <- <- <- <-. rewrite Hs.
    split; [assumption|]. split; [reflexivity|].
    split; [change (handed []) with 0; rewrite Z.add_0_r;
            symmetry; apply uint64_small; apply HI|].
    split; [intros _; split; [reflexivity | lia] | discriminate].
  - cbv zeta in E. rewrite left_exact in E by assumption.
    set (left := max_buf_size_ f - size (buf_ f)) in *.
    destruct (left >? size chunk) eqn:Hl; [discriminate|].
    apply gtb_false in Hl.
    assert (Hleft : 0 <= left <= size chunk)
      by (destruct HI as (_ & _ & ?); lia).
    set (f1 := set_buf (buf_ f ++ prefix left chunk) f) in *.
    assert (Hsz1 : size (buf_ f1) = max_buf_size_ f).
    { unfold f1; simpl. rewrite size_app, size_prefix by assumption.
      unfold left. lia. }
    assert (HI1 : Inv f1).
    { destruct HI as (? & ? & ?). unfold Inv. rewrite Hsz1.
      unfold f1; simpl. split; [assumption|]. split; [assumption | lia]. }
    destruct (EmptyBuffer f1) as [[[s1 f2] e1]| |] eqn:E1; try discriminate.
    destruct (EmptyBuffer_inv _ _ _ _ HI1 E1)
      as (HI2 & Hm2 & Ho2 & Hok & Hko).
    destruct (ok s1) eqn:Hs1.
    + destruct (Hok eq_refl) as (Hb2 & Hh1).
      destruct (Append_loop fuel s1 (remove_prefix left chunk) f2)
        as [[[[s2 c2] f3] e2]| |] eqn:E2; try discriminate.
      simpl in E. injection E as <- <- <- <-.
      destruct (IH _ _ _ _ _ _ _ HI2 Hs1 E2) as (HI3 & Hm3 & Ho3 & Hok3 & Hko3).
      split; [assumption|]. split; [now rewrite Hm3, Hm2|].
      split.
      { rewrite Ho3, Ho2, uint64_add_l, handed_app. f_equal.
        unfold f1; simpl. lia. }
      rewrite handed_bytes_app, Hh1, Hb2 in *. split.
      * intros Hs2. destruct (Hok3 Hs2) as (Hcont & Hlt).
        split; [|rewrite Hm2 in Hlt; exact Hlt].
        rewrite <- app_assoc, Hcont. unfold f1; simpl.
        now rewrite <- app_assoc, prefix_remove_prefix.
      * intros Hs2.
        destruct (Hko3 Hs2) as (Hfull & Hne & Hw & cons & drop & es0 & Hch & Hcont & Hes).
        split; [now rewrite Hfull, Hm2|]. split; [assumption|].
        split; [assumption|].
        exists (prefix left chunk ++ cons), drop, (e1 ++ es0).
        split; [now rewrite <- app_assoc, <- Hch, prefix_remove_prefix|].
        split; [|now rewrite Hes, app_assoc].
        rewrite <- app_assoc, Hcont. unfold f1; simpl.
        now rewrite <- app_assoc.
    + destruct (Hko eq_refl) as (Hb2 & Ho2' & Hne & He1 & Hw).
      injection E as <- <- <- <-.
      split; [assumption|]. split; [assumption|].
      split; [exact Ho2|].
      split; [intros C; rewrite Hs1 in C; discriminate|]. intros _.
      split; [now rewrite Hb2|]. split; [now rewrite Hb2|].
      split; [assumption|].
      exists (prefix left chunk), (remove_prefix left chunk), [].
      split; [now rewrite prefix_remove_prefix|].
      split; [|now rewrite Hb2].
      rewrite He1, Hb2. destruct s1; [discriminate|]. reflexivity.
  - injection E as <- <- <- <-. rewrite Hs.
    split; [assumption|]. split; [reflexivity|].
    split; [change (handed []) with 0; rewrite Z.add_0_r;
            symmetry; apply uint64_small; apply HI|].
    split; [intros _; split; [reflexivity | lia] | discriminate].
Qed.

Lemma prefix_all chunk : prefix (size chunk) chunk = chunk.
Proof. unfold prefix, size. rewrite Nat2Z.id. apply firstn_all. Qed.

(** [Append] after its loop. *)
Lemma Append_fuel_eq fuel data f :
  Append_fuel fuel data f =
  match Append_loop fuel OK data f with
  | Returns ((s, chunk), f1, e) =>
      if ok s then
        if size chunk =? 0 then Returns (s, f1, e)
        else if size (buf_ f1 ++ chunk) <=? max_buf_size_ f1
             then Returns (s, set_buf (buf_ f1 ++ chunk) f1, e)
             else Faults AssertFailed
      else Returns (s, f1, e)
  | Faults x => Faults x
  | OutOfFuel => OutOfFuel
  end.
Proof.
  unfold Append_fuel, bind.
  destruct (Append_loop fuel OK data f) as [[[[s chunk] f1] e]| |];
    try reflexivity.
  destruct (ok s); simpl; unfold ret; [|now rewrite app_nil_r].
  destruct (size chunk =? 0); simpl; [now rewrite app_nil_r|].
  unfold bind, buf_append, get, assert, ret, fault.
  rewrite Z.gtb_ltb, Z.ltb_irrefl, prefix_all. simpl.
  destruct (size (buf_ f1 ++ chunk) <=? max_buf_size_ f1); simpl;
    [now rewrite app_nil_r | reflexivity].
Qed.

(** What a returning [Append] has done (for any fuel, so also for
    [Append] itself). *)
Lemma Append_fuel_spec fuel data f s f' es :
  Inv f -> Append_fuel fuel data f = Returns (s, f', es) ->
  Inv f' /\ max_buf_size_ f' = max_buf_size_ f /\
  offset_ f' = uint64_t (offset_ f + handed es) /\
  (ok s = true ->
     handed_bytes es ++ buf_ f' = buf_ f ++ data /\
     size (buf_ f') < max_buf_size_ f) /\
  (ok s = false ->
     size (buf_ f') = max_buf_size_ f /\ buf_ f' <> [] /\
     (exists w', base_ f' = Some w') /\
     exists consumed dropped es0,
       data = consumed ++ dropped /\
       handed_bytes es ++ buf_ f' = buf_ f ++ consumed /\
       es = es0 ++ [(CAppend (buf_ f'), s)]).
Proof.
  intros HI E. rewrite Append_fuel_eq in E.
  destruct (Append_loop fuel OK data f) as [[[[s1 chunk] f1] e]| |] eqn:EL;
    try discriminate.
  destruct (Append_loop_spec _ OK _ _ _ _ _ _ HI eq_refl EL)
    as (HI1 & Hm1 & Ho1 & Hok & Hko).
  destruct (ok s1) eqn:Hs1.
  - destruct (Hok eq_refl) as (Hcont & Hlt).
    destruct (size chunk =? 0) eqn:Hz.
    + injection E as <- <- <-. apply Z.eqb_eq in Hz.
      pose proof (size_nonneg (buf_ f1)).
      apply size_nil_iff in Hz as Hnil. rewrite Hnil, app_nil_r in Hcont.
      rewrite Hs1.
      split; [assumption|]. split; [assumption|]. split; [assumption|].
      split; [intros _; split; [assumption | lia] | discriminate].
    + rewrite size_app, Hm1 in E.
      destruct (size (buf_ f1) + size chunk <=? max_buf_size_ f) eqn:Hle;
        [|discriminate].
      injection E as <- <- <-. rewrite Hs1. simpl.
      split.
      { destruct HI1 as (? & ? & ?). unfold Inv; simpl.
        rewrite size_app. split; [assumption|]. split; [assumption | lia]. }
      split; [assumption|]. split; [assumption|].
      split; [|discriminate]. intros _.
      split; [assumption | rewrite size_app; lia].
  - injection E as <- <- <-. rewrite Hs1.
    split; [assumption|]. split; [assumption|]. split; [assumption|].
    split; [discriminate|]. intros _. exact (Hko eq_refl).
Qed.

(** *** Termination of the loop *)

(** [EmptyBuffer] has no loop. *)
Lemma EmptyBuffer_not_OutOfFuel f : EmptyBuffer f <> OutOfFuel.
Proof.
  rewrite EmptyBuffer_eq.
  destruct (size (buf_ f) <=? max_buf_size_ f); [|discriminate].
  destruct (size (buf_ f) =? 0); [discriminate|].
  destruct (base_ f) as [w|]; [|discriminate].
  destruct (wf_Append (buf_ f) w). discriminate.
Qed.

(** A successful [EmptyBuffer] leaves an empty buffer, whatever the state
    it starts from. *)
Lemma EmptyBuffer_ok_clears f s f' e :
  EmptyBuffer f = Returns (s, f', e) -> ok s = true ->
  buf_ f' = [] /\ max_buf_size_ f' = max_buf_size_ f /\
  size (buf_ f) <= max_buf_size_ f.
Proof.
  rewrite EmptyBuffer_eq.
  destruct (size (buf_ f) <=? max_buf_size_ f) eqn:Hle; [|discriminate].
  apply Z.leb_le in Hle.
  destruct (size (buf_ f) =? 0) eqn:Hz.
  - intros [= <- <- <-] _. apply Z.eqb_eq, size_nil_iff in Hz. auto.
  - destruct (base_ f) as [w|]; [|discriminate].
    destruct (wf_Append (buf_ f) w) as [s1 w'].
    intros [= <- <- <-] Hs. rewrite Hs. simpl. auto.
Qed.

Lemma Append_loop_not_OutOfFuel fuel : forall s chunk f,
  in_uint64 (max_buf_size_ f) ->
  0 < max_buf_size_ f \/ buf_ f <> [] ->
  (iterations_bound chunk f < fuel)%nat ->
  Append_loop fuel s chunk f <> OutOfFuel.
Proof.
  induction fuel as [|fuel IH]; intros s chunk f Hmax Hpos Hfuel; [lia|].
  rewrite Append_loop_eq.
  destruct (size (buf_ f) + size chunk >=? max_buf_size_ f); [|discriminate].
  cbv zeta. set (left := size_t (max_buf_size_ f - size (buf_ f))).
  destruct (left >? size chunk) eqn:Hl; [discriminate|].
  apply gtb_false in Hl.
  assert (Hleft : 0 <= left)
    by (unfold left, size_t; apply Z.mod_pos_bound; lia).
  set (f1 := set_buf (buf_ f ++ prefix left chunk) f).
  destruct (EmptyBuffer f1) as [[[s1 f2] e1]| |] eqn:E1;
    [|discriminate | now apply EmptyBuffer_not_OutOfFuel in E1].
  destruct (ok s1) eqn:Hs1; [|discriminate].
  destruct (EmptyBuffer_ok_clears _ _ _ _ E1 Hs1) as (Hb2 & Hm2 & Hle).
  unfold f1 in Hle, Hm2; simpl in Hle, Hm2. rewrite size_app in Hle.
  assert (Hmax_pos : 0 < max_buf_size_ f).
  { destruct Hpos as [?|Hne]; [assumption|].
    assert (size (buf_ f) <> 0) by (now rewrite size_nil_iff).
    pose proof (size_nonneg (buf_ f)).
    pose proof (size_nonneg (prefix left chunk)). lia. }
  assert (Hnext : Append_loop fuel s1 (remove_prefix left chunk) f2
                  <> OutOfFuel).
  { apply IH.
    - now rewrite Hm2.
    - left. now rewrite Hm2.
    - unfold iterations_bound in *. rewrite Hb2.
      assert (Hlen : size (remove_prefix left chunk) = size chunk - left)
        by (apply size_remove_prefix; lia).
      unfold size in Hlen.
      destruct (buf_ f) as [|b0 bs] eqn:Hb; [|lia].
      assert (left = max_buf_size_ f).
      { unfold left, size_t, size. simpl. rewrite Z.sub_0_r.
        apply Z.mod_small. exact Hmax. }
      lia. }
  destruct (Append_loop fuel s1 (remove_prefix left chunk) f2)
    as [[[r f3] e2]| |]; simpl; [discriminate | discriminate | contradiction].
Qed.

(** More fuel does not change the outcome of a loop that did not run out. *)
Lemma Append_loop_mono n : forall m s chunk f,
  Append_loop n s chunk f <> OutOfFuel -> (n <= m)%nat ->
  Append_loop m s chunk f = Append_loop n s chunk f.
Proof.
  induction n as [|n IH]; intros m s chunk f Hn Hle;
    rewrite Append_loop_eq in Hn; rewrite (Append_loop_eq m), (Append_loop_eq _ s).
  - destruct (size (buf_ f) + size chunk >=? max_buf_size_ f);
      [contradiction | reflexivity].
  - destruct m as [|m]; [lia|].
    destruct (size (buf_ f) + size chunk >=? max_buf_size_ f); [|reflexivity].
    cbv zeta in *.
    destruct (size_t (max_buf_size_ f - size (buf_ f)) >? size chunk);
      [reflexivity|].
    destruct (EmptyBuffer _) as [[[s1 f2] e1]| |]; try reflexivity.
    destruct (ok s1); [|reflexivity].
    rewrite (IH m); [reflexivity | | lia].
    intros C. rewrite C in Hn. now apply Hn.
Qed.

(** With capacity zero and an empty buffer no iteration makes progress:
    the loop does not return, whatever the fuel. *)
Lemma Append_loop_capacity_zero fuel : forall s chunk f,
  max_buf_size_ f = 0 -> buf_ f = [] ->
  Append_loop fuel s chunk f = OutOfFuel.
Proof.
  induction fuel as [|fuel IH]; intros s chunk f Hmax Hbuf;
    rewrite Append_loop_eq, Hmax, Hbuf; pose proof (size_nonneg chunk);
    (destruct (size [] + size chunk >=? 0) eqn:Hc;
     [|apply geb_false in Hc; change (size []) with 0 in Hc; lia]).
  - reflexivity.
  - cbv zeta. change (size_t (0 - size [])) with 0.
    destruct (0 >? size chunk) eqn:Hl;
      [rewrite Z.gtb_ltb in Hl; apply Z.ltb_lt in Hl; lia|].
    change (prefix 0 chunk) with (@nil byte). simpl app.
    rewrite EmptyBuffer_eq. simpl. rewrite Hmax. simpl.
    now rewrite IH.
Qed.

(** The fuel [Append] gives its loop is enough: more fuel yields the same
    outcome, so [OutOfFuel] from [Append] means the loop never returns. *)
Lemma Append_adequate data f fuel :
  in_uint64 (max_buf_size_ f) -> (S (S (List.length data)) <= fuel)%nat ->
  Append_fuel fuel data f = Append data f.
Proof.
  intros Hmax Hfuel. unfold Append. rewrite !Append_fuel_eq.
  assert (E : Append_loop fuel OK data f =
              Append_loop (S (S (List.length data))) OK data f).
  { destruct (Z.eq_dec (max_buf_size_ f) 0) as [Hz|Hnz].
    - destruct (buf_ f) as [|b0 bs] eqn:Hb.
      + now rewrite !Append_loop_capacity_zero.
      + apply Append_loop_mono; [|assumption].
        apply Append_loop_not_OutOfFuel; [assumption | |].
        * right. rewrite Hb. discriminate.
        * unfold iterations_bound. rewrite Hb. lia.
    - apply Append_loop_mono; [|assumption].
      apply Append_loop_not_OutOfFuel; [assumption | |].
      + left. unfold in_uint64 in Hmax. lia.
      + unfold iterations_bound. destruct (buf_ f); lia. }
  now rewrite E.
Qed.

(** *** Absence of faults *)

Lemma EmptyBuffer_sound f :
  Inv f -> base_ f <> None -> sound (EmptyBuffer f).
Proof.
  intros (Hmax & Hoff & Hbuf) Hbase. rewrite EmptyBuffer_eq.
  apply Z.leb_le in Hbuf. rewrite Hbuf.
  destruct (size (buf_ f) =? 0); [exact Hbase|].
  destruct (base_ f) as [w|]; [|contradiction].
  destruct (wf_Append (buf_ f) w) as [s w']. simpl.
  destruct (ok s); discriminate.
Qed.

Lemma Append_loop_sound fuel : forall s chunk f,
  Inv f -> base_ f <> None -> sound (Append_loop fuel s chunk f).
Proof.
  induction fuel as [|fuel IH]; intros s chunk f HI Hbase;
    rewrite Append_loop_eq;
    destruct (size (buf_ f) + size chunk >=? max_buf_size_ f) eqn:Hc;
    try exact Hbase; try exact I.
  apply geb_true in Hc. cbv zeta. rewrite left_exact by assumption.
  set (left := max_buf_size_ f - size (buf_ f)).
  destruct (left >? size chunk) eqn:Hl;
    [rewrite Z.gtb_ltb in Hl; apply Z.ltb_lt in Hl; unfold left in Hl; lia|].
  set (f1 := set_buf (buf_ f ++ prefix left chunk) f).
  assert (HI1 : Inv f1).
  { destruct HI as (? & ? & ?). unfold Inv, f1; simpl.
    rewrite size_app, size_prefix by (unfold left; lia).
    split; [assumption|]. split; [assumption | unfold left; lia]. }
  pose proof (EmptyBuffer_sound f1 HI1 Hbase) as Hs.
  destruct (EmptyBuffer f1) as [[[s1 f2] e1]| |] eqn:E1;
    [|contradiction | exact I].
  destruct (EmptyBuffer_inv _ _ _ _ HI1 E1) as (HI2 & _).
  destruct (ok s1); [|exact Hs].
  specialize (IH s1 (remove_prefix left chunk) f2 HI2 Hs).
  destruct (Append_loop fuel s1 (remove_prefix left chunk) f2)
    as [[[r f3] e2]| |]; simpl; assumption.
Qed.

Lemma Append_fuel_sound fuel data f :
  Inv f -> base_ f <> None -> sound (Append_fuel fuel data f).
Proof.
  intros HI Hbase. rewrite Append_fuel_eq.
  pose proof (Append_loop_sound fuel OK data f HI Hbase) as Hs.
  destruct (Append_loop fuel OK data f) as [[[[s chunk] f1] e]| |] eqn:EL;
    [|contradiction | exact I].
  destruct (Append_loop_spec _ OK _ _ _ _ _ _ HI eq_refl EL)
    as (HI1 & Hm1 & _ & Hok & _).
  destruct (ok s); [|exact Hs].
  destruct (size chunk =? 0); [exact Hs|].
  destruct (Hok eq_refl) as (_ & Hlt).
  rewrite size_app, Hm1.
  destruct (size (buf_ f1) + size chunk <=? max_buf_size_ f) eqn:Hle;
    [exact Hs | apply Z.leb_gt in Hle; lia].
Qed.

(** [Append] returns whenever the capacity is positive and a writer is
    attached. *)
Lemma Append_returns data f :
  Inv f -> 0 < max_buf_size_ f -> base_ f <> None ->
  exists s f' es, Append data f = Returns (s, f', es).
Proof.
  intros HI Hpos Hbase.
  pose proof (Append_fuel_sound (S (S (List.length data))) data f HI Hbase)
    as Hs.
  assert (Hn : Append_loop (S (S (List.length data))) OK data f <> OutOfFuel).
  { apply Append_loop_not_OutOfFuel; [apply HI | now left |].
    unfold iterations_bound. destruct (buf_ f); lia. }
  unfold Append in *. rewrite Append_fuel_eq in *.
  destruct (Append_loop _ OK data f) as [[[[s chunk] f1] e]| |];
    [|contradiction | contradiction].
  destruct (ok s); [|now eauto].
  destruct (size chunk =? 0); [now eauto|].
  destruct (size (buf_ f1 ++ chunk) <=? max_buf_size_ f1);
    [now eauto | contradiction].
Qed.

(** *** The other member functions *)

Lemma SyncBefore_eq offset f :
  SyncBefore offset f =
  if offset_ f >=? offset then Returns (OK, f, []) else EmptyBuffer f.
Proof.
  unfold SyncBefore, bind, get, ret.
  destruct (offset_ f >=? offset); [reflexivity|].
  destruct (EmptyBuffer f) as [[[s f'] e]| |]; reflexivity.
Qed.

Lemma Sync_eq f :
  Sync f =
  match EmptyBuffer f with
  | Returns (s, f1, e) =>
      if ok s then
        match base_ f1 with
        | None => Faults NullDeref
        | Some w =>
            let (s2, w') := wf_Sync w in
            Returns (s2, set_base (Some w') f1, e ++ [(CSync, s2)])
        end
      else Returns (s, f1, e)
  | Faults x => Faults x
  | OutOfFuel => OutOfFuel
  end.
Proof.
  unfold Sync, bind, call_base, ret.
  destruct (EmptyBuffer f) as [[[s f1] e]| |]; try reflexivity.
  destruct (ok s); [|now rewrite app_nil_r].
  destruct (base_ f1) as [w|]; [|reflexivity].
  destruct (wf_Sync w); reflexivity.
Qed.

Lemma Close_eq f :
  Close f =
  match EmptyBuffer f with
  | Returns (s, f1, e) =>
      match base_ f1 with
      | None => Faults NullDeref
      | Some w =>
          let (s2, w') := wf_Close w in
          Returns (s, set_base None f1, e ++ [(CClose, s2)])
      end
  | Faults x => Faults x
  | OutOfFuel => OutOfFuel
  end.
Proof.
  unfold Close, bind, call_base, modify, ret.
  destruct (EmptyBuffer f) as [[[s f1] e]| |]; try reflexivity.
  destruct (base_ f1) as [w|]; [|reflexivity].
  destruct (wf_Close w). simpl. rewrite ?app_nil_r. reflexivity.
Qed.

Lemma handed_snoc_other e c s :
  (forall d, c <> CAppend d) -> handed (e ++ [(c, s)]) = handed e.
Proof.
  intros Hc. rewrite handed_app.
  assert (handed [(c, s)] = 0) as ->; [|lia].
  destruct c; try reflexivity. now destruct (Hc data).
Qed.

(** Every member function keeps the invariant and moves the offset by
    what the wrapped writer accepted during the call. *)
Lemma exec_inv o f s f' e :
  Inv f -> exec o f = Returns (s, f', e) ->
  Inv f' /\ max_buf_size_ f' = max_buf_size_ f /\
  offset_ f' = uint64_t (offset_ f + handed e).
Proof.
  intros HI E.
  assert (Hstay : Inv f /\ max_buf_size_ f = max_buf_size_ f /\
                  offset_ f = uint64_t (offset_ f + handed [])).
  { split; [assumption|]. split; [reflexivity|].
    change (handed []) with 0. rewrite Z.add_0_r.
    symmetry. apply uint64_small, HI. }
  destruct o; simpl in E.
  - unfold Append in E.
    destruct (Append_fuel_spec _ _ _ _ _ _ HI E) as (? & ? & ? & _). auto.
  - rewrite SyncBefore_eq in E. destruct (offset_ f >=? offset).
    + now injection E as <- <- <-.
    + destruct (EmptyBuffer_inv _ _ _ _ HI E) as (? & ? & ? & _). auto.
  - rewrite Sync_eq in E.
    destruct (EmptyBuffer f) as [[[s1 f1] e1]| |] eqn:E1; try discriminate.
    destruct (EmptyBuffer_inv _ _ _ _ HI E1) as (HI1 & Hm1 & Ho1 & _).
    destruct (ok s1).
    + destruct (base_ f1) as [w|]; [|discriminate].
      destruct (wf_Sync w) as [s2 w']. injection E as <- <- <-.
      rewrite handed_snoc_other by discriminate. auto.
    + injection E as <- <- <-. auto.
  - now injection E as <- <- <-.
  - destruct (EmptyBuffer_inv _ _ _ _ HI E) as (? & ? & ? & _). auto.
  - rewrite Close_eq in E.
    destruct (EmptyBuffer f) as [[[s1 f1] e1]| |] eqn:E1; try discriminate.
    destruct (EmptyBuffer_inv _ _ _ _ HI E1) as (HI1 & Hm1 & Ho1 & _).
    destruct (base_ f1) as [w|]; [|discriminate].
    destruct (wf_Close w) as [s2 w']. injection E as <- <- <-.
    rewrite handed_snoc_other by discriminate. auto.
Qed.

Lemma run_cons_inv o ops f ss f' es :
  run (o :: ops) f = Returns (ss, f', es) ->
  exists s f1 e1 ss' e2,
    exec o f = Returns (s, f1, e1) /\ run ops f1 = Returns (ss', f', e2) /\
    ss = s :: ss' /\ es = e1 ++ e2.
Proof.
  simpl. unfold bind, ret.
  destruct (exec o f) as [[[s f1] e1]| |]; try discriminate.
  destruct (run ops f1) as [[[ss' f2] e2]| |] eqn:E2; try discriminate.
  intros [= <- <- <-]. exists s, f1, e1, ss', e2.
  rewrite app_nil_r. auto.
Qed.

Lemma run_inv ops : forall f ss f' es,
  Inv f -> run ops f = Returns (ss, f', es) ->
  Inv f' /\ max_buf_size_ f' = max_buf_size_ f /\
  offset_ f' = uint64_t (offset_ f + handed es).
Proof.
  induction ops as [|o ops IH]; intros f ss f' es HI E.
  - injection E as <- <- <-. split; [assumption|]. split; [reflexivity|].
    change (handed []) with 0. rewrite Z.add_0_r.
    symmetry. apply uint64_small, HI.
  - apply run_cons_inv in E
      as (s & f1 & e1 & ss' & e2 & E1 & E2 & -> & ->).
    destruct (exec_inv _ _ _ _ _ HI E1) as (HI1 & Hm1 & Ho1).
    destruct (IH _ _ _ _ HI1 E2) as (HI2 & Hm2 & Ho2).
    split; [assumption|]. split; [congruence|].
    rewrite Ho2, Ho1, uint64_add_l, handed_app. f_equal. lia.
Qed.

Lemma run_app_inv ops1 : forall ops2 f ss f' es,
  run (ops1 ++ ops2) f = Returns (ss, f', es) ->
  exists ss1 f1 es1 ss2 es2,
    run ops1 f = Returns (ss1, f1, es1) /\
    run ops2 f1 = Returns (ss2, f', es2) /\
    ss = ss1 ++ ss2 /\ es = es1 ++ es2.
Proof.
  induction ops1 as [|o ops1 IH]; intros ops2 f ss f' es E.
  - exists [], f, [], ss, es. auto.
  - rewrite <- app_comm_cons in E. apply run_cons_inv in E
      as (s & f1 & e1 & ss' & e2 & E1 & E2 & -> & ->).
    apply IH in E2 as (ss1 & f2 & es1 & ss2 & es2 & R1 & R2 & -> & ->).
    exists (s :: ss1), f2, (e1 ++ es1), ss2, es2.
    split; [|split; [assumption | split; [reflexivity | apply app_assoc]]].
    simpl. unfold bind, ret. rewrite E1, R1. now rewrite app_nil_r.
Qed.

(** *** Calls that stay within the capacity, and call sequences *)

(** A call that stays below the capacity only buffers. *)
Lemma Append_below_capacity data f :
  size (buf_ f) + size data < max_buf_size_ f ->
  Append data f =
    Returns (OK, (if size data =? 0 then f else set_buf (buf_ f ++ data) f), []).
Proof.
  intros Hlt. unfold Append. rewrite Append_fuel_eq, Append_loop_eq.
  destruct (size (buf_ f) + size data >=? max_buf_size_ f) eqn:Hc;
    [apply geb_true in Hc; lia|].
  simpl ok. cbv iota.
  destruct (size data =? 0); [reflexivity|].
  rewrite size_app.
  destruct (size (buf_ f) + size data <=? max_buf_size_ f) eqn:Hle;
    [reflexivity | apply Z.leb_gt in Hle; lia].
Qed.

(** A call that brings the buffer exactly to the capacity hands the whole
    buffer over and leaves it empty. *)
Lemma Append_reaching_capacity data f w w' :
  Inv f -> 0 < max_buf_size_ f ->
  size (buf_ f) + size data = max_buf_size_ f ->
  base_ f = Some w -> wf_Append (buf_ f ++ data) w = (OK, w') ->
  Append data f =
    Returns (OK, flushed (set_buf (buf_ f ++ data) f) w',
             [(CAppend (buf_ f ++ data), OK)]).
Proof.
  intros HI Hpos Hsum Hbase Hw. unfold Append.
  rewrite Append_fuel_eq, Append_loop_eq.
  destruct (size (buf_ f) + size data >=? max_buf_size_ f) eqn:Hc;
    [|apply geb_false in Hc; lia].
  cbv zeta. rewrite left_exact by assumption.
  assert (Hleft : max_buf_size_ f - size (buf_ f) = size data) by lia.
  rewrite Hleft, Z.gtb_ltb, Z.ltb_irrefl, prefix_all.
  rewrite EmptyBuffer_eq. simpl buf_. simpl max_buf_size_. simpl base_.
  rewrite size_app.
  assert (Hle : (size (buf_ f) + size data <=? max_buf_size_ f) = true)
    by (apply Z.leb_le; lia).
  assert (Hz : (size (buf_ f) + size data =? 0) = false)
    by (apply Z.eqb_neq; lia).
  rewrite Hle, Hz, Hbase, Hw. simpl ok. cbv iota.
  rewrite Append_loop_eq. simpl buf_. simpl max_buf_size_.
  assert (Hrest : remove_prefix (size data) data = []).
  { unfold remove_prefix, size. rewrite Nat2Z.id. apply skipn_all. }
  rewrite Hrest. change (size [] + size []) with 0.
  destruct (0 >=? max_buf_size_ f) eqn:Hc2; [apply geb_true in Hc2; lia|].
  reflexivity.
Qed.

Lemma run_cons_eq o ops f :
  run (o :: ops) f =
  match exec o f with
  | Returns (s, f1, e1) =>
      match run ops f1 with
      | Returns (ss, f2, e2) => Returns (s :: ss, f2, e1 ++ e2)
      | Faults x => Faults x
      | OutOfFuel => OutOfFuel
      end
  | Faults x => Faults x
  | OutOfFuel => OutOfFuel
  end.
Proof.
  simpl. unfold bind, ret.
  destruct (exec o f) as [[[s f1] e1]| |]; try reflexivity.
  destruct (run ops f1) as [[[ss f2] e2]| |]; try reflexivity.
  now rewrite app_nil_r.
Qed.

Lemma run_nil f : run [] f = Returns ([], f, []).
Proof. reflexivity. Qed.

Lemma exec_Append data : exec (OpAppend data) = Append data.
Proof. reflexivity. Qed.

(** ** The claims about UnsafeBufferedWritableFile *)

(** C2 (the code at the input on which it does not return): constructed
    with capacity 0, [Append] never returns, for any data and any wrapped
    writer: the loop condition [buf_.size() + chunk.size() >= 0] always
    holds, [left] is 0, [EmptyBuffer] has nothing to hand over, and
    [remove_prefix(0)] consumes nothing.  No amount of fuel lets the loop
    return, and so [Append] itself yields [OutOfFuel]. *)
Theorem Append_capacity_zero_never_returns (base : option W) data :
  (forall fuel, Append_fuel fuel data (make base 0) = OutOfFuel) /\
  Append data (make base 0) = OutOfFuel.
Proof.
  assert (E : forall fuel, Append_fuel fuel data (make base 0) = OutOfFuel).
  { intros fuel. rewrite Append_fuel_eq.
    now rewrite Append_loop_capacity_zero. }
  split; [exact E | apply E].
Qed.

(** C4: [EmptyBuffer] on a buffer within the capacity (its [assert]).
    With an empty buffer it returns success, changes nothing and makes no
    call on the wrapped writer.  With a non-empty buffer it makes exactly
    one call, [Append] of the whole buffer; if that succeeds the offset has
    advanced by the buffer length (in [uint64_t] arithmetic, so exactly
    when the sum fits) and the buffer is empty; if it fails, buffer and
    offset are as before and the failure is returned. *)
Theorem EmptyBuffer_contract f :
  size (buf_ f) <= max_buf_size_ f ->
  (buf_ f = [] -> EmptyBuffer f = Returns (OK, f, [])) /\
  (buf_ f <> [] -> forall w, base_ f = Some w ->
     exists s w' f',
       wf_Append (buf_ f) w = (s, w') /\
       EmptyBuffer f = Returns (s, f', [(CAppend (buf_ f), s)]) /\
       base_ f' = Some w' /\ max_buf_size_ f' = max_buf_size_ f /\
       (ok s = true ->
          buf_ f' = [] /\
          offset_ f' = uint64_t (offset_ f + size (buf_ f)) /\
          (in_uint64 (offset_ f + size (buf_ f)) ->
           offset_ f' = offset_ f + size (buf_ f))) /\
       (ok s = false -> buf_ f' = buf_ f /\ offset_ f' = offset_ f)).
Proof.
  intros Hle. apply Z.leb_le in Hle. split.
  - intros Hnil. rewrite EmptyBuffer_eq, Hle, Hnil. reflexivity.
  - intros Hne w Hbase.
    assert (Hz : (size (buf_ f) =? 0) = false)
      by (apply Z.eqb_neq; now rewrite size_nil_iff).
    rewrite EmptyBuffer_eq, Hle, Hz, Hbase.
    destruct (wf_Append (buf_ f) w) as [s w'].
    exists s, w', (if ok s then flushed f w' else set_base (Some w') f).
    split; [reflexivity|]. split; [reflexivity|].
    destruct (ok s); simpl.
    + split; [reflexivity|]. split; [reflexivity|].
      split; [|discriminate]. intros _.
      split; [reflexivity|]. split; [reflexivity|].
      intros Hfit. now apply uint64_small.
    + split; [reflexivity|]. split; [reflexivity|].
      split; [discriminate|]. intros _. now split.
Qed.

(** C5: the state invariant along any call sequence on a freshly
    constructed object.  Whenever a sequence [ops1 ++ ops2] returns, the
    state between [ops1] and [ops2] and the final state both keep the
    buffer within the capacity; in both, the offset is the number of bytes
    the wrapped writer has accepted so far, as a [uint64_t] (so exactly
    that number while it is below 2^64), and then the offset of the earlier
    state is not above that of the later one. *)
Theorem buffer_and_offset_invariant (base : option W) cap ops1 ops2 ss f2 es :
  in_uint64 cap ->
  run (ops1 ++ ops2) (make base cap) = Returns (ss, f2, es) ->
  exists ss1 f1 es1 ss2 es2,
    run ops1 (make base cap) = Returns (ss1, f1, es1) /\
    run ops2 f1 = Returns (ss2, f2, es2) /\
    es = es1 ++ es2 /\
    max_buf_size_ f1 = cap /\ max_buf_size_ f2 = cap /\
    size (buf_ f1) <= cap /\ size (buf_ f2) <= cap /\
    offset_ f1 = uint64_t (handed es1) /\
    offset_ f2 = uint64_t (handed es) /\
    (handed es < 2 ^ 64 ->
       offset_ f1 = handed es1 /\ offset_ f2 = handed es /\
       offset_ f1 <= offset_ f2).
Proof.
  intros Hcap E.
  assert (HI0 : Inv (make base cap)).
  { unfold Inv, make, in_uint64 in *; simpl.
    change (size []) with 0. lia. }
  apply run_app_inv in E
    as (ss1 & f1 & es1 & ss2 & es2 & E1 & E2 & -> & ->).
  destruct (run_inv _ _ _ _ _ HI0 E1) as (HI1 & Hm1 & Ho1).
  destruct (run_inv _ _ _ _ _ HI1 E2) as (HI2 & Hm2 & Ho2).
  simpl in Hm1, Ho1.
  assert (Ho2' : offset_ f2 = uint64_t (handed (es1 ++ es2))).
  { rewrite Ho2, Ho1, uint64_add_l, handed_app. reflexivity. }
  exists ss1, f1, es1, ss2, es2.
  split; [assumption|]. split; [assumption|]. split; [reflexivity|].
  split; [assumption|]. split; [congruence|].
  split; [rewrite <- Hm1; apply HI1|].
  split; [rewrite <- Hm1, <- Hm2; apply HI2|].
  split; [assumption|]. split; [assumption|].
  intros Hfit. rewrite handed_app in *.
  pose proof (handed_nonneg es1). pose proof (handed_nonneg es2).
  rewrite Ho2', Ho1, !uint64_small by (unfold in_uint64; lia). lia.
Qed.

Lemma final_run_cons o ops1 ops2 f :
  (forall f1, final (run ops1 f1) = final (run ops2 f1)) ->
  final (run (o :: ops1) f) = final (run (o :: ops2) f).
Proof.
  intros Hrest. simpl. unfold bind, ret.
  destruct (exec o f) as [[[s f1] e1]| |]; try reflexivity.
  specialize (Hrest f1).
  destruct (run ops1 f1) as [[[ss1 g1] x1]| |];
    destruct (run ops2 f1) as [[[ss2 g2] x2]| |];
    simpl in *; congruence.
Qed.

Lemma final_run_Flush ops f : final (run (OpFlush :: ops) f) = final (run ops f).
Proof.
  simpl. unfold bind, Flush, ret.
  destruct (run ops f) as [[[ss g] x]| |]; simpl; [|reflexivity..].
  now rewrite app_nil_r.
Qed.

(** C6: [Flush] returns success, leaves the object as it is and makes no
    call on the wrapped writer; taking every [Flush] out of a call
    sequence changes neither the final object (buffer, offset, wrapped
    writer) nor the calls the wrapped writer received, whether or not the
    sequence returns. *)
Theorem Flush_is_inert :
  (forall f, Flush f = Returns (OK, f, [])) /\
  (forall ops f, final (run (without_Flush ops) f) = final (run ops f)).
Proof.
  split; [reflexivity|].
  induction ops as [|o ops IH]; intros f; [reflexivity|].
  destruct o; try (apply final_run_cons; exact IH).
  unfold without_Flush in *. simpl filter.
  now rewrite final_run_Flush.
Qed.

(** C7, as the code has it: [SyncBefore(x)] returns success at once, with
    no call on the wrapped writer, when the offset is at least [x], and is
    [EmptyBuffer()] otherwise.  When a call of [SyncBefore(x)] returns
    success, it has made at most one call on the wrapped writer, and a
    second [SyncBefore(x)] right after it returns success, changes nothing
    and makes no call.  When a call of [SyncBefore(x)] returns a failure,
    that failure is the one of the single [Append] of the buffer it made
    on the wrapped writer, buffer and offset are as before, and a second
    [SyncBefore(x)] right after it is no no-op: it makes that [Append] of
    the same buffer on the wrapped writer again, and what it returns and
    leaves behind is decided by that second attempt. *)
Theorem SyncBefore_contract x f :
  (x <= offset_ f -> SyncBefore x f = Returns (OK, f, [])) /\
  (offset_ f < x -> SyncBefore x f = EmptyBuffer f) /\
  (forall s f1 e1,
     SyncBefore x f = Returns (s, f1, e1) -> ok s = true ->
     (List.length e1 <= 1)%nat /\
     SyncBefore x f1 = Returns (OK, f1, [])) /\
  (forall s f1 e1,
     SyncBefore x f = Returns (s, f1, e1) -> ok s = false ->
     buf_ f <> [] /\ e1 = [(CAppend (buf_ f), s)] /\
     buf_ f1 = buf_ f /\ offset_ f1 = offset_ f /\
     max_buf_size_ f1 = max_buf_size_ f /\
     exists w1,
       base_ f1 = Some w1 /\
       SyncBefore x f1 =
         let (s2, w2) := wf_Append (buf_ f) w1 in
         Returns (s2,
                  (if ok s2 then flushed f1 w2 else set_base (Some w2) f1),
                  [(CAppend (buf_ f), s2)])).
Proof.
  split; [|split; [|split]].
  - intros Hx. rewrite SyncBefore_eq.
    destruct (offset_ f >=? x) eqn:Hc; [reflexivity|].
    apply geb_false in Hc. lia.
  - intros Hx. rewrite SyncBefore_eq.
    destruct (offset_ f >=? x) eqn:Hc; [|reflexivity].
    apply geb_true in Hc. lia.
  - intros s f1 e1 E Hs. rewrite SyncBefore_eq in E.
    destruct (offset_ f >=? x) eqn:Hc.
    + injection E as <- <- <-. split; [simpl; lia|].
      now rewrite SyncBefore_eq, Hc.
    + destruct (EmptyBuffer_ok_clears _ _ _ _ E Hs) as (Hb1 & Hm1 & Hle).
      split.
      * rewrite EmptyBuffer_eq in E.
        destruct (size (buf_ f) <=? max_buf_size_ f); [|discriminate].
        destruct (size (buf_ f) =? 0).
        -- injection E as <- <- <-. simpl; lia.
        -- destruct (base_ f) as [w|]; [|discriminate].
           destruct (wf_Append (buf_ f) w). injection E as <- <- <-.
           simpl; lia.
      * rewrite SyncBefore_eq. destruct (offset_ f1 >=? x); [reflexivity|].
        rewrite EmptyBuffer_eq, Hb1. change (size []) with 0.
        pose proof (size_nonneg (buf_ f)).
        assert (Hz : (0 <=? max_buf_size_ f1) = true)
          by (apply Z.leb_le; lia).
        now rewrite Hz.
  - intros s f1 e1 E Hs. rewrite SyncBefore_eq in E.
    destruct (offset_ f >=? x) eqn:Hc;
      [injection E as <- <- <-; discriminate|].
    rewrite EmptyBuffer_eq in E.
    destruct (size (buf_ f) <=? max_buf_size_ f) eqn:Hle; [|discriminate].
    destruct (size (buf_ f) =? 0) eqn:Hz;
      [injection E as <- <- <-; discriminate|].
    destruct (base_ f) as [w|] eqn:Hb; [|discriminate].
    destruct (wf_Append (buf_ f) w) as [s1 w1].
    injection E as <- <- <-. rewrite Hs.
    split.
    { intros C. apply Z.eqb_neq in Hz. apply Hz. now rewrite C. }
    split; [reflexivity|]. split; [reflexivity|]. split; [reflexivity|].
    split; [reflexivity|].
    exists w1. split; [reflexivity|].
    rewrite SyncBefore_eq. cbn [set_base offset_]. rewrite Hc.
    rewrite EmptyBuffer_eq. cbn [set_base buf_ max_buf_size_ base_].
    now rewrite Hle, Hz.
Qed.

(** C10, as the code has it: when [Append(data)] returns a failure, the
    failure is that of the last [Append] call on the wrapped writer, whose
    argument is the buffer as it is left; the buffer is left non-empty and
    exactly at capacity; the offset has advanced by the bytes that earlier
    iterations of the same call handed over; those bytes followed by the
    buffer are the previously buffered bytes followed by a prefix of
    [data], and only the rest of [data] is dropped.  When nothing was
    handed over before the failure, the offset is unchanged and the buffer
    holds the previously buffered bytes followed by the prefix of [data]
    that fills it up.  The next [EmptyBuffer] hands exactly the retained
    buffer to the wrapped writer, in one call. *)
Theorem Append_failure_keeps_full_buffer data f s f' es :
  Inv f -> Append data f = Returns (s, f', es) -> ok s = false ->
  0 < max_buf_size_ f /\
  size (buf_ f') = max_buf_size_ f /\
  offset_ f' = uint64_t (offset_ f + handed es) /\
  (exists consumed dropped es0,
     data = consumed ++ dropped /\
     handed_bytes es ++ buf_ f' = buf_ f ++ consumed /\
     es = es0 ++ [(CAppend (buf_ f'), s)]) /\
  (handed_bytes es = [] ->
     offset_ f' = offset_ f /\
     buf_ f' = buf_ f ++ prefix (max_buf_size_ f - size (buf_ f)) data) /\
  (exists w, base_ f' = Some w /\
     EmptyBuffer f' =
       let (s2, w2) := wf_Append (buf_ f') w in
       Returns (s2, (if ok s2 then flushed f' w2 else set_base (Some w2) f'),
                [(CAppend (buf_ f'), s2)])).
Proof.
  intros HI E Hs. unfold Append in E.
  destruct (Append_fuel_spec _ _ _ _ _ _ HI E)
    as (HI' & Hm & Ho & _ & Hko).
  destruct (Hko Hs)
    as (Hfull & Hne & (w & Hw) & cons & drop & es0 & Hd & Hcont & Hes).
  assert (Hsz : size (buf_ f') <> 0) by (now rewrite size_nil_iff).
  pose proof (size_nonneg (buf_ f')).
  split; [lia|]. split; [assumption|]. split; [assumption|].
  split; [now exists cons, drop, es0|]. split.
  - intros Hnone. rewrite Hnone in Hcont. simpl in Hcont.
    unfold handed in Ho. rewrite Hnone in Ho. change (size []) with 0 in Ho.
    rewrite Z.add_0_r, uint64_small in Ho by apply HI.
    split; [assumption|]. rewrite Hcont. f_equal.
    assert (Hlen : size cons = max_buf_size_ f - size (buf_ f))
      by (rewrite <- Hfull, Hcont, size_app; lia).
    rewrite <- Hlen, Hd. unfold prefix, size. rewrite Nat2Z.id.
    now rewrite firstn_app, Nat.sub_diag, firstn_all, firstn_O, app_nil_r.
  - exists w. split; [assumption|].
    rewrite EmptyBuffer_eq, Hw.
    assert (Hle : (size (buf_ f') <=? max_buf_size_ f') = true)
      by (apply Z.leb_le; lia).
    assert (Hz : (size (buf_ f') =? 0) = false) by (now apply Z.eqb_neq).
    now rewrite Hle, Hz.
Qed.

(** X1: every member function returns (no loop without end, no fault)
    when the capacity is positive, the buffer is within it and a writer is
    attached; the calls on the wrapped writer are total by their type. *)
Theorem every_operation_returns o f :
  Inv f -> 0 < max_buf_size_ f -> base_ f <> None ->
  exists s f' e, exec o f = Returns (s, f', e).
Proof.
  intros HI Hpos Hbase.
  assert (HE : exists s f1 e1,
             EmptyBuffer f = Returns (s, f1, e1) /\ base_ f1 <> None).
  { pose proof (EmptyBuffer_sound f HI Hbase) as Hs.
    destruct (EmptyBuffer f) as [[[s f1] e1]| |] eqn:E;
      [now eauto | contradiction |
       now apply EmptyBuffer_not_OutOfFuel in E]. }
  destruct HE as (s1 & f1 & e1 & E1 & Hb1).
  destruct o; simpl.
  - now apply Append_returns.
  - rewrite SyncBefore_eq. destruct (offset_ f >=? offset); eauto.
  - rewrite Sync_eq, E1. destruct (ok s1); [|now eauto].
    destruct (base_ f1) as [w|]; [|contradiction].
    destruct (wf_Sync w); eauto.
  - unfold Flush, ret. eauto.
  - eauto.
  - rewrite Close_eq, E1.
    destruct (base_ f1) as [w|]; [|contradiction].
    destruct (wf_Close w); eauto.
Qed.

(** X2: a successful [Append] loses nothing and keeps the order: the bytes
    handed to the wrapped writer during the call, followed by the buffer
    after it, are the buffer before it followed by [data]; and the buffer
    is left strictly below the capacity. *)
Theorem Append_success_keeps_order data f s f' es :
  Inv f -> Append data f = Returns (s, f', es) -> ok s = true ->
  handed_bytes es ++ buf_ f' = buf_ f ++ data /\
  size (buf_ f') < max_buf_size_ f.
Proof.
  intros HI E Hs. unfold Append in E.
  destruct (Append_fuel_spec _ _ _ _ _ _ HI E) as (_ & _ & _ & Hok & _).
  exact (Hok Hs).
Qed.

(** C1, as the code has it: the scenario with capacity 10 over a wrapped
    writer that accepts the ten bytes.  [Append("abcdefg")] buffers seven
    bytes.  [Append("xyz")] brings the total to the capacity, and since the
    loop runs while [buf_.size() + chunk.size() >= max_buf_size_] it
    already hands "abcdefgxyz" over: the buffer is empty and the offset 10.
    [Append("Q")] then only buffers "Q". *)
Theorem scenario_capacity_ten (w w' : W) :
  wf_Append (str "abcdefgxyz") w = (OK, w') ->
  run [OpAppend (str "abcdefg")] (make (Some w) 10) =
    Returns ([OK], mk_t (Some w) 0 10 (str "abcdefg"), []) /\
  run [OpAppend (str "abcdefg"); OpAppend (str "xyz")] (make (Some w) 10) =
    Returns ([OK; OK], mk_t (Some w') 10 10 [],
             [(CAppend (str "abcdefgxyz"), OK)]) /\
  run [OpAppend (str "abcdefg"); OpAppend (str "xyz"); OpAppend (str "Q")]
      (make (Some w) 10) =
    Returns ([OK; OK; OK], mk_t (Some w') 10 10 (str "Q"),
             [(CAppend (str "abcdefgxyz"), OK)]).
Proof.
  intros Hw.
  assert (E1 : Append (str "abcdefg") (make (Some w) 10) =
               Returns (OK, mk_t (Some w) 0 10 (str "abcdefg"), [])).
  { rewrite Append_below_capacity by (cbv; reflexivity). reflexivity. }
  assert (E2 : Append (str "xyz") (mk_t (Some w) 0 10 (str "abcdefg")) =
               Returns (OK, mk_t (Some w') 10 10 [],
                        [(CAppend (str "abcdefgxyz"), OK)])).
  { rewrite (Append_reaching_capacity _ _ w w'); try reflexivity.
    - unfold Inv, in_uint64, size; simpl; lia.
    - exact Hw. }
  assert (E3 : Append (str "Q") (mk_t (Some w') 10 10 []) =
               Returns (OK, mk_t (Some w') 10 10 (str "Q"), [])).
  { rewrite Append_below_capacity by (cbv; reflexivity). reflexivity. }
  split; [|split];
    repeat (rewrite run_cons_eq, exec_Append; rewrite ?E1, ?E2, ?E3;
            cbv beta iota);
    rewrite run_nil; reflexivity.
Qed.

End WithBase.

(** ** Concrete runs *)

Lemma scenario_capacity_ten_witness :
  wf_Append (str "abcdefgxyz") reliable =
    (OK, mkScripted [] (str "abcdefgxyz")) /\
  run [OpAppend (str "abcdefg")] (make (Some reliable) 10) =
    Returns ([OK], mk_t (Some reliable) 0 10 (str "abcdefg"), []) /\
  run [OpAppend (str "abcdefg"); OpAppend (str "xyz")]
      (make (Some reliable) 10) =
    Returns ([OK; OK], mk_t (Some (mkScripted [] (str "abcdefgxyz"))) 10 10 [],
             [(CAppend (str "abcdefgxyz"), OK)]) /\
  run [OpAppend (str "abcdefg"); OpAppend (str "xyz"); OpAppend (str "Q")]
      (make (Some reliable) 10) =
    Returns ([OK; OK; OK],
             mk_t (Some (mkScripted [] (str "abcdefgxyz"))) 10 10 (str "Q"),
             [(CAppend (str "abcdefgxyz"), OK)]).
Proof.
  split; [reflexivity|].
  apply (scenario_capacity_ten reliable (mkScripted [] (str "abcdefgxyz"))).
  reflexivity.
Defined.

(** The claimed state after [Append("xyz")] (buffer "abcdefgxyz", offset
    0) is not the state the code is in: the buffer has been handed over. *)
Lemma scenario_second_append_flushes :
  exists ss f es,
    run [OpAppend (str "abcdefg"); OpAppend (str "xyz")]
        (make (Some reliable) 10) = Returns (ss, f, es) /\
    buf_ f = [] /\ offset_ f = 10 /\
    buf_ f <> str "abcdefgxyz" /\ offset_ f <> 0 /\
    es = [(CAppend (str "abcdefgxyz"), OK)].
Proof.
  eexists _, _, _. split; [vm_compute; reflexivity|]. simpl.
  repeat split; discriminate.
Qed.

Lemma EmptyBuffer_contract_witness :
  let f := mk_t (Some reliable) 0 10 (str "abc") in
  size (buf_ f) <= max_buf_size_ f /\
  exists f',
    EmptyBuffer f = Returns (OK, f', [(CAppend (str "abc"), OK)]) /\
    buf_ f' = [] /\ offset_ f' = 3.
Proof.
  set (f := mk_t (Some reliable) 0 10 (str "abc")).
  assert (Hle : size (buf_ f) <= max_buf_size_ f) by (vm_compute; discriminate).
  split; [exact Hle|].
  destruct (EmptyBuffer_contract f Hle) as (_ & Hne).
  destruct (Hne ltac:(discriminate) reliable eq_refl)
    as (s & w' & f' & Hw & E & _ & _ & Hok & _).
  vm_compute in Hw. injection Hw as <- <-.
  destruct (Hok eq_refl) as (Hbuf & _ & Hfit).
  exists f'. split; [exact E|]. split; [exact Hbuf|].
  apply Hfit. unfold in_uint64, f, size; simpl; lia.
Defined.

Lemma buffer_and_offset_invariant_witness :
  let ops1 := [OpAppend (str "abcdefg"); OpAppend (str "xyz")] in
  let ops2 := [OpAppend (str "Q"); OpFlush; OpSync; OpAppend (str "rs")] in
  let f2 := mk_t (Some (mkScripted [] (str "abcdefgxyzQ"))) 11 10 (str "rs") in
  let es := [(CAppend (str "abcdefgxyz"), OK); (CAppend (str "Q"), OK);
             (CSync, OK)] in
  in_uint64 10 /\
  run (ops1 ++ ops2) (make (Some reliable) 10) =
    Returns ([OK; OK; OK; OK; OK; OK], f2, es) /\
  exists f1 es1,
    final (run ops1 (make (Some reliable) 10)) = Returns (f1, es1) /\
    size (buf_ f1) <= 10 /\ size (buf_ f2) <= 10 /\
    offset_ f1 = handed es1 /\ offset_ f2 = handed es /\
    offset_ f1 <= offset_ f2.
Proof.
  cbv zeta.
  assert (Hcap : in_uint64 10) by (unfold in_uint64; lia).
  split; [exact Hcap|].
  assert (E : run ([OpAppend (str "abcdefg"); OpAppend (str "xyz")] ++
                   [OpAppend (str "Q"); OpFlush; OpSync; OpAppend (str "rs")])
                  (make (Some reliable) 10) =
              Returns ([OK; OK; OK; OK; OK; OK],
                       mk_t (Some (mkScripted [] (str "abcdefgxyzQ"))) 11 10
                            (str "rs"),
                       [(CAppend (str "abcdefgxyz"), OK);
                        (CAppend (str "Q"), OK); (CSync, OK)]))
    by (vm_compute; reflexivity).
  split; [exact E|].
  destruct (buffer_and_offset_invariant _ _ _ _ _ _ _ Hcap E)
    as (ss1 & f1 & es1 & ss2 & es2 & E1 & _ & _ & _ & _ & Hb1 & Hb2 &
        _ & _ & Hfit).
  exists f1, es1. rewrite E1. split; [reflexivity|].
  split; [exact Hb1|]. split; [exact Hb2|].
  apply Hfit. vm_compute. reflexivity.
Defined.

Lemma Append_failure_keeps_full_buffer_witness :
  let f := mk_t (Some fails_once) 0 4 (str "ab") in
  let f' := mk_t (Some (mkScripted [] [])) 0 4 (str "abcd") in
  let es := [(CAppend (str "abcd"), IOError [])] in
  Inv f /\
  Append (str "cdefg") f = Returns (IOError [], f', es) /\
  ok (IOError []) = false /\
  size (buf_ f') = 4 /\ offset_ f' = offset_ f /\
  buf_ f' = buf_ f ++ prefix (4 - size (buf_ f)) (str "cdefg").
Proof.
  cbv zeta.
  set (f := mk_t (Some fails_once) 0 4 (str "ab")).
  set (f' := mk_t (Some (mkScripted [] [])) 0 4 (str "abcd")).
  assert (HI : Inv f) by (unfold Inv, in_uint64, f, size; simpl; lia).
  assert (E : Append (str "cdefg") f =
              Returns (IOError [], f', [(CAppend (str "abcd"), IOError [])]))
    by (vm_compute; reflexivity).
  split; [exact HI|]. split; [exact E|]. split; [reflexivity|].
  destruct (Append_failure_keeps_full_buffer _ _ _ _ _ HI E eq_refl)
    as (_ & Hfull & _ & _ & Hfirst & _).
  split; [exact Hfull|]. exact (Hfirst eq_refl).
Defined.

(** A failure in a later iteration: the first hand-off succeeds, so the
    offset is no longer the one before the call, and the buffer holds the
    second piece of [data], not a prefix of it. *)
Lemma Append_failure_after_a_flush :
  let f := make (Some fails_second) 2 in
  exists f' es,
    Append (str "abcd") f = Returns (IOError [], f', es) /\
    offset_ f' = 2 /\ offset_ f' <> offset_ f /\
    buf_ f' = str "cd" /\
    buf_ f' <> buf_ f ++ prefix (max_buf_size_ f - size (buf_ f)) (str "abcd") /\
    es = [(CAppend (str "ab"), OK); (CAppend (str "cd"), IOError [])].
Proof.
  eexists _, _. split; [vm_compute; reflexivity|]. simpl.
  repeat split; discriminate.
Qed.

(** A first [SyncBefore(1)] that fails and a second that retries: the two
    calls do not both return success, and the wrapped writer receives the
    buffer twice. *)
Lemma SyncBefore_twice_on_failing_writer :
  let f := mk_t (Some fails_once) 0 10 (str "a") in
  exists f1 f2,
    SyncBefore 1 f =
      Returns (IOError [], f1, [(CAppend (str "a"), IOError [])]) /\
    SyncBefore 1 f1 = Returns (OK, f2, [(CAppend (str "a"), OK)]) /\
    ok (IOError []) = false.
Proof.
  eexists _, _. split; [vm_compute; reflexivity|].
  split; [vm_compute; reflexivity | reflexivity].
Qed.

(** A first [SyncBefore(1)] that hands the buffer over, and a second that
    has nothing left to do; and, over a writer whose first call fails, a
    first [SyncBefore(1)] that fails and leaves the buffer for the second
    to hand over again. *)
Lemma SyncBefore_contract_witness :
  let f := mk_t (Some reliable) 0 10 (str "a") in
  let f1 := mk_t (Some (mkScripted [] (str "a"))) 1 10 [] in
  let g := mk_t (Some fails_once) 0 10 (str "a") in
  let g1 := mk_t (Some (mkScripted [] [])) 0 10 (str "a") in
  SyncBefore 1 f = Returns (OK, f1, [(CAppend (str "a"), OK)]) /\
  ok OK = true /\
  SyncBefore 1 f1 = Returns (OK, f1, []) /\
  SyncBefore 1 g =
    Returns (IOError [], g1, [(CAppend (str "a"), IOError [])]) /\
  ok (IOError []) = false /\
  buf_ g1 = buf_ g /\ offset_ g1 = offset_ g /\
  exists w1,
    base_ g1 = Some w1 /\
    SyncBefore 1 g1 =
      let (s2, w2) := wf_Append (buf_ g) w1 in
      Returns (s2, (if ok s2 then flushed g1 w2 else set_base (Some w2) g1),
               [(CAppend (buf_ g), s2)]).
Proof.
  cbv zeta.
  assert (E : SyncBefore 1 (mk_t (Some reliable) 0 10 (str "a")) =
              Returns (OK, mk_t (Some (mkScripted [] (str "a"))) 1 10 [],
                       [(CAppend (str "a"), OK)]))
    by (vm_compute; reflexivity).
  assert (G : SyncBefore 1 (mk_t (Some fails_once) 0 10 (str "a")) =
              Returns (IOError [], mk_t (Some (mkScripted [] [])) 0 10 (str "a"),
                       [(CAppend (str "a"), IOError [])]))
    by (vm_compute; reflexivity).
  split; [exact E|]. split; [reflexivity|].
  destruct (SyncBefore_contract 1 (mk_t (Some reliable) 0 10 (str "a")))
    as (_ & _ & Htwice & _).
  split; [exact (proj2 (Htwice _ _ _ E eq_refl))|].
  split; [exact G|]. split; [reflexivity|].
  destruct (SyncBefore_contract 1 (mk_t (Some fails_once) 0 10 (str "a")))
    as (_ & _ & _ & Hretry).
  destruct (Hretry _ _ _ G eq_refl) as (_ & _ & Hb & Ho & _ & Hw).
  split; [exact Hb|]. split; [exact Ho|]. exact Hw.
Defined.

Lemma every_operation_returns_witness :
  let f := mk_t (Some reliable) 0 10 (str "abcdefg") in
  Inv f /\ 0 < max_buf_size_ f /\ base_ f <> None /\
  exists s f' e, exec (OpAppend (str "xyz")) f = Returns (s, f', e).
Proof.
  cbv zeta.
  set (f := mk_t (Some reliable) 0 10 (str "abcdefg")).
  assert (HI : Inv f) by (unfold Inv, in_uint64, f, size; simpl; lia).
  assert (Hpos : 0 < max_buf_size_ f) by (simpl; lia).
  assert (Hb : base_ f <> None) by discriminate.
  split; [exact HI|]. split; [exact Hpos|]. split; [exact Hb|].
  exact (every_operation_returns (OpAppend (str "xyz")) f HI Hpos Hb).
Defined.

Lemma Append_success_keeps_order_witness :
  let f := mk_t (Some reliable) 0 4 (str "ab") in
  let f' := mk_t (Some (mkScripted [] (str "abcdefgh"))) 8 4 (str "i") in
  let es := [(CAppend (str "abcd"), OK); (CAppend (str "efgh"), OK)] in
  Inv f /\
  Append (str "cdefghi") f = Returns (OK, f', es) /\
  ok OK = true /\
  handed_bytes es ++ buf_ f' = buf_ f ++ str "cdefghi".
Proof.
  cbv zeta.
  set (f := mk_t (Some reliable) 0 4 (str "ab")).
  assert (HI : Inv f) by (unfold Inv, in_uint64, f, size; simpl; lia).
  assert (E : Append (str "cdefghi") f =
              Returns (OK,
                       mk_t (Some (mkScripted [] (str "abcdefgh"))) 8 4
                            (str "i"),
                       [(CAppend (str "abcd"), OK);
                        (CAppend (str "efgh"), OK)]))
    by (vm_compute; reflexivity).
  split; [exact HI|]. split; [exact E|]. split; [reflexivity|].
  exact (proj1 (Append_success_keeps_order _ _ _ _ _ HI E eq_refl)).
Defined.

End BufferedFacts.

(** * Properties of the measuring decorators *)

Module MeasuredFacts.

Lemma uint64_exact z : in_uint64 z -> uint64_t z = z.
Proof. unfold in_uint64, uint64_t. intros. now apply Z.mod_small. Qed.

Lemma uint32_exact z : in_uint32 z -> uint32_t z = z.
Proof. unfold in_uint32, uint32_t. intros. now apply Z.mod_small. Qed.

(** C3, as the code has it: with the base absent, [Flush], [Sync] and
    [Append] of [MeasuredWritableFile] and [Read] and [Skip] of
    [MeasuredSequentialFile] return the disconnected failure and leave the
    object, so every counter (and the caller's result slice), as it is;
    [Close] of [MeasuredWritableFile] returns success instead, also leaving
    the object as it is.  [Close] on a present base and [Reset] to absent
    both leave the base absent; [Close] keeps the counters, [Reset] zeroes
    them. *)
Theorem disconnected_calls
  {W : Type} `{WritableFile W} {F : Type} `{SequentialFile F}
  (mw : MeasuredWritableFile.t W) (ms : MeasuredSequentialFile.t F)
  (data result : bytes) (n : Z) :
  MeasuredWritableFile.base_ mw = None ->
  MeasuredSequentialFile.base_ ms = None ->
  MeasuredWritableFile.Flush mw = (Disconnected, mw) /\
  MeasuredWritableFile.Sync mw = (Disconnected, mw) /\
  MeasuredWritableFile.Append data mw = (Disconnected, mw) /\
  MeasuredWritableFile.Close mw = (OK, mw) /\
  MeasuredSequentialFile.Read n result ms = (Disconnected, result, ms) /\
  MeasuredSequentialFile.Skip n ms = (Disconnected, ms) /\
  (forall m' : MeasuredWritableFile.t W,
     MeasuredWritableFile.base_ (snd (MeasuredWritableFile.Close m')) = None /\
     MeasuredWritableFile.counters (snd (MeasuredWritableFile.Close m')) =
       MeasuredWritableFile.counters m' /\
     MeasuredWritableFile.Reset None m' =
       MeasuredWritableFile.mk_t None 0 0 0 0) /\
  (forall m' : MeasuredSequentialFile.t F,
     MeasuredSequentialFile.Reset None m' =
       MeasuredSequentialFile.mk_t None 0 0).
Proof.
  intros Hw Hs.
  unfold MeasuredWritableFile.Flush, MeasuredWritableFile.Sync,
    MeasuredWritableFile.Append, MeasuredWritableFile.Close,
    MeasuredSequentialFile.Read, MeasuredSequentialFile.Skip.
  rewrite Hw, Hs.
  repeat (split; [reflexivity|]). split.
  - intros m'. destruct (MeasuredWritableFile.base_ m') as [w|] eqn:Hb.
    + destruct (wf_Close w) as [s w']. simpl. auto.
    + simpl. auto.
  - reflexivity.
Qed.

(** C9: counters move only on success, and by the exact amounts (in the
    arithmetic of their types: [uint64_t] for bytes and operations,
    [uint32_t] for flushes and syncs, so by exactly that much whenever the
    sum fits the type).  A call on a present base returns the status of the
    base call.  [Append] adds the length of [data] to the byte counter and
    one to the operation counter; [Flush] adds one to the flush counter;
    [Sync] adds one to the sync counter; [Read] adds the length of the
    slice the base left in [*result] to the byte counter and one to the
    operation counter; each only when the base call succeeded, and
    otherwise all counters are as before.  [Skip] never changes a
    counter. *)
Theorem counters_follow_success
  {W : Type} `{WritableFile W} {F : Type} `{SequentialFile F}
  (mw : MeasuredWritableFile.t W) (ms : MeasuredSequentialFile.t F)
  (w : W) (b : F) (data result : bytes) (n k : Z) :
  MeasuredWritableFile.base_ mw = Some w ->
  MeasuredSequentialFile.base_ ms = Some b ->
  let syncs := MeasuredWritableFile.num_syncs_ mw in
  let flushes := MeasuredWritableFile.num_flushes_ mw in
  let wbytes := MeasuredWritableFile.bytes_ mw in
  let wops := MeasuredWritableFile.ops_ mw in
  let rbytes := MeasuredSequentialFile.bytes_ ms in
  let rops := MeasuredSequentialFile.ops_ ms in
  (fst (MeasuredWritableFile.Append data mw) = fst (wf_Append data w) /\
   MeasuredWritableFile.counters (snd (MeasuredWritableFile.Append data mw)) =
     if ok (fst (wf_Append data w))
     then (syncs, flushes, uint64_t (wbytes + size data), uint64_t (wops + 1))
     else (syncs, flushes, wbytes, wops)) /\
  (fst (MeasuredWritableFile.Flush mw) = fst (wf_Flush w) /\
   MeasuredWritableFile.counters (snd (MeasuredWritableFile.Flush mw)) =
     if ok (fst (wf_Flush w))
     then (syncs, uint32_t (flushes + 1), wbytes, wops)
     else (syncs, flushes, wbytes, wops)) /\
  (fst (MeasuredWritableFile.Sync mw) = fst (wf_Sync w) /\
   MeasuredWritableFile.counters (snd (MeasuredWritableFile.Sync mw)) =
     if ok (fst (wf_Sync w))
     then (uint32_t (syncs + 1), flushes, wbytes, wops)
     else (syncs, flushes, wbytes, wops)) /\
  (let '(s, result', _) := sf_Read n result b in
   let '(s2, result2, ms') := MeasuredSequentialFile.Read n result ms in
   s2 = s /\ result2 = result' /\
   MeasuredSequentialFile.counters ms' =
     if ok s
     then (uint64_t (rbytes + size result'), uint64_t (rops + 1))
     else (rbytes, rops)) /\
  MeasuredSequentialFile.counters (snd (MeasuredSequentialFile.Skip k ms)) =
    (rbytes, rops) /\
  (in_uint64 (wbytes + size data) ->
     uint64_t (wbytes + size data) = wbytes + size data) /\
  (in_uint64 (wops + 1) -> uint64_t (wops + 1) = wops + 1) /\
  (in_uint32 (flushes + 1) -> uint32_t (flushes + 1) = flushes + 1) /\
  (in_uint32 (syncs + 1) -> uint32_t (syncs + 1) = syncs + 1) /\
  (forall r : bytes, in_uint64 (rbytes + size r) ->
     uint64_t (rbytes + size r) = rbytes + size r) /\
  (in_uint64 (rops + 1) -> uint64_t (rops + 1) = rops + 1).
Proof.
  intros Hw Hs. cbv zeta.
  unfold MeasuredWritableFile.Flush, MeasuredWritableFile.Sync,
    MeasuredWritableFile.Append, MeasuredSequentialFile.Read,
    MeasuredSequentialFile.Skip.
  rewrite Hw, Hs.
  split; [destruct (wf_Append data w) as [s w']; destruct s; simpl; auto|].
  split; [destruct (wf_Flush w) as [s w']; destruct s; simpl; auto|].
  split; [destruct (wf_Sync w) as [s w']; destruct s; simpl; auto|].
  split; [destruct (sf_Read n result b) as [[s r] b']; destruct s; simpl; auto|].
  split; [destruct (sf_Skip k b) as [s b']; reflexivity|].
  repeat split; intros; first [now apply uint64_exact | now apply uint32_exact].
Qed.

(** A measured writer over a writer that accepts everything, after some
    traffic. *)
Lemma counters_follow_success_witness :
  let mw := MeasuredWritableFile.mk_t (Some reliable) 1 2 30 4 in
  let ms := MeasuredSequentialFile.mk_t
              (Some (mkSource (str "hello") false)) 7 1 in
  MeasuredWritableFile.base_ mw = Some reliable /\
  MeasuredSequentialFile.base_ ms = Some (mkSource (str "hello") false) /\
  MeasuredWritableFile.counters
    (snd (MeasuredWritableFile.Append (str "abc") mw)) = (1, 2, 33, 5) /\
  MeasuredWritableFile.counters (snd (MeasuredWritableFile.Flush mw)) =
    (1, 3, 30, 4) /\
  MeasuredWritableFile.counters (snd (MeasuredWritableFile.Sync mw)) =
    (2, 2, 30, 4) /\
  MeasuredSequentialFile.counters
    (snd (MeasuredSequentialFile.Skip 2 ms)) = (7, 1).
Proof.
  cbv zeta. split; [reflexivity|]. split; [reflexivity|].
  destruct (counters_follow_success
              (MeasuredWritableFile.mk_t (Some reliable) 1 2 30 4)
              (MeasuredSequentialFile.mk_t
                 (Some (mkSource (str "hello") false)) 7 1)
              reliable (mkSource (str "hello") false)
              (str "abc") [] 8 2 eq_refl eq_refl)
    as ((_ & Ha) & (_ & Hf) & (_ & Hy) & _ & Hk & _).
  split; [exact Ha|]. split; [exact Hf|]. split; [exact Hy | exact Hk].
Defined.

Lemma disconnected_calls_witness :
  let mw := MeasuredWritableFile.mk_t (@None ScriptedFile) 1 2 30 4 in
  let ms := MeasuredSequentialFile.mk_t (@None StringSource) 7 1 in
  MeasuredWritableFile.base_ mw = None /\
  MeasuredSequentialFile.base_ ms = None /\
  MeasuredWritableFile.Append (str "abc") mw = (Disconnected, mw) /\
  MeasuredSequentialFile.Read 8 [] ms = (Disconnected, [], ms).
Proof.
  cbv zeta. split; [reflexivity|]. split; [reflexivity|].
  destruct (disconnected_calls
              (MeasuredWritableFile.mk_t (@None ScriptedFile) 1 2 30 4)
              (MeasuredSequentialFile.mk_t (@None StringSource) 7 1)
              (str "abc") [] 8 eq_refl eq_refl)
    as (_ & _ & Ha & _ & Hr & _).
  split; [exact Ha | exact Hr].
Defined.

(** [Close] on a decorator whose base is absent (here: after a first
    [Close]) returns success, not the disconnected failure. *)
Lemma Close_when_disconnected_succeeds :
  let m := snd (MeasuredWritableFile.Close
                  (MeasuredWritableFile.make (Some reliable))) in
  MeasuredWritableFile.base_ m = None /\
  fst (MeasuredWritableFile.Close m) = OK /\
  fst (MeasuredWritableFile.Close m) <> Disconnected.
Proof.
  cbv zeta. split; [reflexivity|]. split; [reflexivity | discriminate].
Qed.

End MeasuredFacts.

(** * Properties of WholeFileBufferedRandomAccessFile *)

Module WholeFileFacts.
Import WholeFileBufferedRandomAccessFile.

Lemma view_bytes_size (b : bytes) start n :
  0 <= start -> 0 <= n -> start + n <= size b ->
  size (prefix n (remove_prefix start b)) = n.
Proof.
  unfold size, prefix, remove_prefix. intros Hs Hn Hle.
  rewrite length_firstn, length_skipn. lia.
Qed.

(** C8: [Read(offset, n)] always returns success.  At or beyond the
    buffered length the result is the empty slice; below it, the result
    is the view of [buf_] that starts at [offset] and has
    [min(n, buf_size_ - offset)] bytes.  The view never has more than [n]
    bytes and ends at or before the buffered length, hence within the
    capacity when the buffered length is; with nothing buffered every
    read is empty. *)
Theorem Read_contract {F : Type} `{SequentialFile F} (f : t F) (offset n : Z) :
  in_uint64 offset -> in_uint64 n -> in_uint64 (buf_size_ f) ->
  fst (Read offset n f) = OK /\
  (buf_size_ f <= offset -> snd (Read offset n f) = EmptySlice) /\
  (offset < buf_size_ f ->
     snd (Read offset n f) =
       BufSlice offset (Z.min n (buf_size_ f - offset))) /\
  0 <= view_size (snd (Read offset n f)) <= n /\
  view_end (snd (Read offset n f)) <= buf_size_ f /\
  (buf_size_ f <= max_buf_size_ f ->
     view_end (snd (Read offset n f)) <= max_buf_size_ f) /\
  (buf_size_ f = 0 -> snd (Read offset n f) = EmptySlice) /\
  (buf_size_ f <= size (buf_ f) ->
     size (view_bytes f (snd (Read offset n f))) =
       view_size (snd (Read offset n f))).
Proof.
  unfold in_uint64. intros Ho Hn Hb. unfold Read.
  destruct (offset <? buf_size_ f) eqn:Hlt.
  - apply Z.ltb_lt in Hlt.
    assert (Hd : size_t (buf_size_ f - offset) = buf_size_ f - offset)
      by (unfold size_t; apply Z.mod_small; lia).
    rewrite Hd.
    assert (Hmin : (if n >? buf_size_ f - offset
                    then buf_size_ f - offset else n) =
                   Z.min n (buf_size_ f - offset)).
    { rewrite Z.gtb_ltb.
      destruct (buf_size_ f - offset <? n) eqn:Hc;
        [apply Z.ltb_lt in Hc | apply Z.ltb_ge in Hc]; lia. }
    rewrite Hmin. simpl.
    split; [reflexivity|]. split; [lia|]. split; [reflexivity|].
    split; [lia|]. split; [lia|]. split; [lia|]. split; [lia|].
    intros Hsz. apply view_bytes_size; lia.
  - apply Z.ltb_ge in Hlt. simpl.
    split; [reflexivity|]. split; [reflexivity|]. split; [lia|].
    split; [lia|]. split; [lia|]. split; [lia|]. split; [reflexivity|].
    reflexivity.
Qed.

(** Capacity 8 with five bytes loaded: a read of ten bytes at offset 3
    yields the two bytes that are there, a read at offset 5 none. *)
Lemma Read_contract_witness :
  let f := mk_t (@None StringSource) 8 4096 5 (str "helloXYZ") in
  in_uint64 3 /\ in_uint64 10 /\ in_uint64 (buf_size_ f) /\
  Read 3 10 f = (OK, BufSlice 3 2) /\
  view_bytes f (snd (Read 3 10 f)) = str "lo" /\
  view_end (snd (Read 3 10 f)) <= buf_size_ f.
Proof.
  cbv zeta.
  assert (H3 : in_uint64 3) by (unfold in_uint64; lia).
  assert (H10 : in_uint64 10) by (unfold in_uint64; lia).
  assert (H5 : in_uint64 5) by (unfold in_uint64; lia).
  split; [exact H3|]. split; [exact H10|]. split; [exact H5|].
  destruct (Read_contract
              (mk_t (@None StringSource) 8 4096 5 (str "helloXYZ")) 3 10
              H3 H10 H5)
    as (Hst & _ & Hview & _ & Hend & _).
  split.
  - rewrite (surjective_pairing (Read 3 10 _)), Hst, Hview; [reflexivity|].
    simpl; lia.
  - split; [reflexivity | exact Hend].
Defined.

End WholeFileFacts.

(** * Durability calls and the life cycle of UnsafeBufferedWritableFile *)

Module BufferedLifecycle.
Import UnsafeBufferedWritableFile BufferedFacts.

Section WithBase.
Context {W : Type} `{WritableFile W}.
Implicit Types (f : t W) (data chunk : bytes) (s : Status).

Lemma count_app p (e1 e2 : list Event) :
  count p (e1 ++ e2) = count p e1 + count p e2.
Proof. unfold count. rewrite filter_app, length_app. lia. Qed.

Lemma count_nonneg p (es : list Event) : 0 <= count p es.
Proof. unfold count. lia. Qed.

(** A returning [EmptyBuffer], by the two ways it can go. *)
Lemma EmptyBuffer_cases f s f' e :
  EmptyBuffer f = Returns (s, f', e) ->
  (buf_ f = [] /\ s = OK /\ f' = f /\ e = []) \/
  (buf_ f <> [] /\ exists w w',
     base_ f = Some w /\ wf_Append (buf_ f) w = (s, w') /\
     e = [(CAppend (buf_ f), s)] /\
     f' = if ok s then flushed f w' else set_base (Some w') f).
Proof.
  rewrite EmptyBuffer_eq.
  destruct (size (buf_ f) <=? max_buf_size_ f); [|discriminate].
  destruct (size (buf_ f) =? 0) eqn:Hz.
  - intros [= <- <- <-]. left. apply Z.eqb_eq, size_nil_iff in Hz. auto.
  - apply Z.eqb_neq in Hz.
    destruct (base_ f) as [w|]; [|discriminate].
    destruct (wf_Append (buf_ f) w) as [s1 w'] eqn:Hw.
    intros [= <- <- <-]. right. split.
    + intros C. apply Hz. now rewrite C.
    + exists w, w'. auto.
Qed.

(** X3: [Sync].  The wrapped writer's [Sync] is called only after the
    buffer has been handed over successfully (or was empty), and then it
    is the last call and its status is the one returned, with the buffer
    empty.  When the hand-off fails, its failure is returned, the wrapped
    writer's [Sync] is not called, and buffer and offset are as before. *)
Theorem Sync_contract f s f' es :
  Inv f -> Sync f = Returns (s, f', es) ->
  (exists es0,
     es = es0 ++ [(CSync, s)] /\ count is_ok_CSync es0 = 0 /\
     handed_bytes es0 = buf_ f /\ buf_ f' = [] /\
     offset_ f' = uint64_t (offset_ f + size (buf_ f)) /\
     (List.length es0 <= 1)%nat) \/
  (ok s = false /\ es = [(CAppend (buf_ f), s)] /\
   buf_ f' = buf_ f /\ offset_ f' = offset_ f /\ buf_ f <> []).
Proof.
  intros HI E. rewrite Sync_eq in E.
  destruct (EmptyBuffer f) as [[[s1 f1] e1]| |] eqn:E1; try discriminate.
  destruct (EmptyBuffer_inv _ _ _ _ HI E1) as (_ & _ & Ho & Hok & Hko).
  destruct (ok s1) eqn:Hs1.
  - destruct (base_ f1) as [w|] eqn:Hb; [|discriminate].
    destruct (wf_Sync w) as [s2 w2]. injection E as <- <- <-.
    destruct (Hok eq_refl) as (Hbuf & Hh).
    left. exists e1. simpl. split; [reflexivity|].
    assert (Hsz : handed e1 = size (buf_ f)) by (unfold handed; now rewrite Hh).
    rewrite Hsz in Ho.
    destruct (EmptyBuffer_cases _ _ _ _ E1)
      as [(_ & _ & _ & ->)|(_ & w0 & w' & _ & _ & -> & _)];
      simpl; repeat split; auto.
  - injection E as <- <- <-. right.
    destruct (Hko eq_refl) as (Hbuf & Ho' & Hne & He & _).
    auto.
Qed.

(** X4: [Close].  [Close] hands the buffer over, then closes the wrapped
    writer whatever the hand-off returned, and leaves [base_] NULL.  The
    status it returns is the one of the hand-off alone: the status of the
    wrapped writer's own [Close] is dropped.  When the hand-off failed the
    buffered bytes never reached the wrapped writer and stay in the
    buffer of an object that has no writer any more. *)
Theorem Close_contract f s f' es :
  Inv f -> Close f = Returns (s, f', es) ->
  base_ f' = None /\
  exists es0 sc,
    es = es0 ++ [(CClose, sc)] /\ count is_CClose es0 = 0 /\
    (buf_ f = [] -> es0 = [] /\ s = OK /\ buf_ f' = []) /\
    (buf_ f <> [] ->
       es0 = [(CAppend (buf_ f), s)] /\
       (ok s = true -> buf_ f' = []) /\
       (ok s = false -> buf_ f' = buf_ f /\ handed es = 0)).
Proof.
  intros HI E. rewrite Close_eq in E.
  destruct (EmptyBuffer f) as [[[s1 f1] e1]| |] eqn:E1; try discriminate.
  destruct (base_ f1) as [w|] eqn:Hb; [|discriminate].
  destruct (wf_Close w) as [sc w2]. injection E as <- <- <-.
  split; [reflexivity|]. exists e1, sc. split; [reflexivity|].
  destruct (EmptyBuffer_cases _ _ _ _ E1)
    as [(Hnil & -> & -> & ->)|(Hne & w0 & w' & Hb0 & Hw & -> & ->)].
  - split; [reflexivity|]. split; [auto | contradiction].
  - split; [reflexivity|]. split; [contradiction|]. intros _.
    split; [reflexivity|]. destruct (ok s1) eqn:Hs1; simpl.
    + split; [reflexivity | discriminate].
    + split; [discriminate|]. intros _. split; [reflexivity|].
      destruct s1; [discriminate | reflexivity].
Qed.

(** X5: use after [Close].  On an object that [Close] has returned from,
    a second [Close] and [Sync] dereference the NULL [base_]; so do
    [EmptyBuffer] and [SyncBefore] beyond the offset when the failed
    hand-off left bytes in the buffer.  [Flush] still returns success. *)
Theorem use_after_Close f s f' es :
  Inv f -> Close f = Returns (s, f', es) ->
  Close f' = Faults NullDeref /\
  Sync f' = Faults NullDeref /\
  Flush f' = Returns (OK, f', []) /\
  (ok s = false ->
     EmptyBuffer f' = Faults NullDeref /\
     forall x, offset_ f' < x -> SyncBefore x f' = Faults NullDeref).
Proof.
  intros HI E.
  assert (Hnull : base_ f' = None).
  { rewrite Close_eq in E.
    destruct (EmptyBuffer f) as [[[s1 f1] e1]| |]; try discriminate.
    destruct (base_ f1) as [w|]; [|discriminate].
    destruct (wf_Close w). now injection E as <- <- <-. }
  assert (HI' : Inv f').
  { change (Close f) with (exec OpClose f) in E.
    now destruct (exec_inv _ _ _ _ _ HI E). }
  assert (HE : EmptyBuffer f' = Faults NullDeref \/
               EmptyBuffer f' = Returns (OK, f', [])).
  { rewrite EmptyBuffer_eq. destruct HI' as (_ & _ & Hle).
    apply Z.leb_le in Hle. rewrite Hle, Hnull.
    destruct (size (buf_ f') =? 0); auto. }
  split; [|split; [|split]].
  - rewrite Close_eq. destruct HE as [-> | ->]; [reflexivity|].
    now rewrite Hnull.
  - rewrite Sync_eq. destruct HE as [-> | ->]; [reflexivity|].
    simpl. now rewrite Hnull.
  - reflexivity.
  - intros Hs. rewrite Close_eq in E.
    destruct (EmptyBuffer f) as [[[s1 f1] e1]| |] eqn:E1; try discriminate.
    destruct (EmptyBuffer_inv _ _ _ _ HI E1) as (_ & _ & _ & _ & Hko).
    destruct (base_ f1) as [w|]; [|discriminate].
    destruct (wf_Close w). injection E as <- <- <-.
    destruct (Hko Hs) as (Hbuf & _ & Hne & _).
    assert (Hz : (size (buf_ (set_base None f1)) =? 0) = false).
    { apply Z.eqb_neq. rewrite size_nil_iff. simpl. now rewrite Hbuf. }
    assert (HEf : EmptyBuffer (set_base None f1) = Faults NullDeref).
    { rewrite EmptyBuffer_eq. destruct HI' as (_ & _ & Hle).
      apply Z.leb_le in Hle. now rewrite Hle, Hz. }
    split; [exact HEf|]. intros x Hx. rewrite SyncBefore_eq.
    destruct (offset_ (set_base None f1) >=? x) eqn:Hc;
      [apply geb_true in Hc; lia|].
    exact HEf.
Qed.

(** *** What the calls of a sequence do to the wrapped writer *)

Lemma replays_app (e1 e2 : list Event) (w w1 w2 : W) :
  replays e1 w w1 -> replays e2 w1 w2 -> replays (e1 ++ e2) w w2.
Proof.
  induction 1 as [w|c s es w wa wb Hc _ IH]; intros H2; simpl.
  - exact H2.
  - econstructor; [exact Hc | now apply IH].
Qed.

Lemma EmptyBuffer_tracks f : tracks f (EmptyBuffer f).
Proof.
  unfold tracks.
  destruct (EmptyBuffer f) as [[[s f'] es]| |] eqn:E; try exact I.
  destruct (EmptyBuffer_cases _ _ _ _ E)
    as [(_ & _ & -> & ->)|(_ & w & w' & Hb & Hw & -> & ->)].
  - destruct (base_ f) as [w|]; [|now split].
    exists w. repeat split; constructor.
  - rewrite Hb. exists w'. split; [now destruct (ok s)|]. split.
    + econstructor; [exact Hw | constructor].
    + repeat constructor.
Qed.

Lemma tracks_after {A : Type} f f1 (e1 : list Event)
  (r : Outcome (A * t W * list Event)) (a : Status) :
  tracks f (Returns (a, f1, e1)) -> tracks f1 r -> tracks f (after e1 r).
Proof.
  unfold tracks. destruct r as [[[x f2] e2]| |]; simpl; try (intros; exact I).
  destruct (base_ f) as [w|].
  - intros (w1 & -> & R1 & F1) (w2 & Hb & R2 & F2).
    exists w2. split; [assumption|]. split.
    + eapply replays_app; eassumption.
    + apply Forall_app. now split.
  - intros (-> & ->) (Hb & ->). now split.
Qed.

Lemma Append_loop_tracks fuel : forall s chunk f,
  tracks f (Append_loop fuel s chunk f).
Proof.
  induction fuel as [|fuel IH]; intros s chunk f; rewrite Append_loop_eq;
    destruct (size (buf_ f) + size chunk >=? max_buf_size_ f);
    try exact I;
    try (unfold tracks; destruct (base_ f) as [w|];
         [exists w; repeat split; constructor | now split]).
  cbv zeta.
  destruct (size_t (max_buf_size_ f - size (buf_ f)) >? size chunk);
    [exact I|].
  set (f1 := set_buf _ f).
  pose proof (EmptyBuffer_tracks f1) as T1.
  destruct (EmptyBuffer f1) as [[[s1 f2] e1]| |]; try exact I.
  assert (T1' : tracks f (Returns (s1, f2, e1))) by exact T1.
  destruct (ok s1).
  - eapply tracks_after; [exact T1' | apply IH].
  - exact T1'.
Qed.

Lemma Append_tracks data f : tracks f (Append data f).
Proof.
  unfold Append. rewrite Append_fuel_eq.
  pose proof (Append_loop_tracks (S (S (List.length data))) OK data f) as T.
  destruct (Append_loop _ OK data f) as [[[[s chunk] f1] e]| |]; try exact I.
  destruct (ok s); [|exact T].
  destruct (size chunk =? 0); [exact T|].
  destruct (size (buf_ f1 ++ chunk) <=? max_buf_size_ f1); [exact T | exact I].
Qed.

(** Every member function but [Close] keeps the writer attached and makes
    only recorded hand-offs and syncs on it; without a writer, a call that
    returns has made no call. *)
Lemma exec_tracks o f : o <> OpClose -> tracks f (exec o f).
Proof.
  intros Ho. destruct o; simpl; try contradiction.
  - apply Append_tracks.
  - rewrite SyncBefore_eq. destruct (offset_ f >=? offset).
    + unfold tracks. destruct (base_ f) as [w|];
        [exists w; repeat split; constructor | now split].
    + apply EmptyBuffer_tracks.
  - rewrite Sync_eq. pose proof (EmptyBuffer_tracks f) as T.
    destruct (EmptyBuffer f) as [[[s1 f1] e1]| |]; try exact I.
    destruct (ok s1); [|exact T].
    destruct (base_ f1) as [w1|] eqn:Hb1; [|exact I].
    destruct (wf_Sync w1) as [s2 w2] eqn:Hs.
    unfold tracks in *. destruct (base_ f) as [w|].
    + destruct T as (w' & Hb & R & F). rewrite Hb1 in Hb.
      injection Hb as <-. exists w2. split; [reflexivity|]. split.
      * eapply replays_app; [exact R|].
        econstructor; [exact Hs | constructor].
      * apply Forall_app. split; [exact F | repeat constructor].
    + destruct T as (Hb & _). congruence.
  - unfold tracks, Flush, ret. destruct (base_ f) as [w|];
      [exists w; repeat split; constructor | now split].
  - apply EmptyBuffer_tracks.
Qed.

Lemma Close_or_not (o : Op) : o = OpClose \/ o <> OpClose.
Proof. destruct o; (now left) || (right; discriminate). Qed.

(** [Close] without a writer does not return. *)
Lemma Close_needs_base f : base_ f = None ->
  forall r, Close f <> Returns r.
Proof.
  intros Hb r. rewrite Close_eq.
  pose proof (EmptyBuffer_tracks f) as T.
  destruct (EmptyBuffer f) as [[[s1 f1] e1]| |]; try discriminate.
  unfold tracks in T. rewrite Hb in T. destruct T as (-> & _).
  discriminate.
Qed.

Lemma count_hand_off_or_sync es :
  Forall hand_off_or_sync es ->
  count is_CClose es = 0 /\ count is_CFlush es = 0.
Proof.
  unfold count. induction 1 as [|e es (Hc & Hf) _ (IHc & IHf)]; simpl.
  - now split.
  - rewrite Hc, Hf. now split.
Qed.

(** Without a writer a returning call sequence makes no call. *)
Lemma run_without_base ops : forall f ss f' es,
  base_ f = None -> run ops f = Returns (ss, f', es) ->
  base_ f' = None /\ es = [].
Proof.
  induction ops as [|o ops IH]; intros f ss f' es Hb E.
  - now injection E as <- <- <-.
  - apply run_cons_inv in E as (s & f1 & e1 & ss' & e2 & E1 & E2 & -> & ->).
    destruct (Close_or_not o) as [-> | Hnc].
    + change (exec OpClose f) with (Close f) in E1.
      now apply Close_needs_base in E1.
    + pose proof (exec_tracks o f Hnc) as T.
      rewrite E1 in T. unfold tracks in T. rewrite Hb in T.
      destruct T as (Hb1 & ->).
      destruct (IH _ _ _ _ Hb1 E2) as (? & ->). now split.
Qed.

(** Along a returning call sequence on an object with a writer: either
    the writer is still attached and has not been closed, or [Close] was
    the last call that reached it, exactly once, and [base_] is NULL. *)
Lemma run_close_state ops : forall f ss f' es w,
  base_ f = Some w -> run ops f = Returns (ss, f', es) ->
  (base_ f' <> None /\ count is_CClose es = 0) \/
  (base_ f' = None /\ count is_CClose es = 1).
Proof.
  induction ops as [|o ops IH]; intros f ss f' es w Hb E.
  - injection E as <- <- <-. left. rewrite Hb. split; [discriminate|reflexivity].
  - apply run_cons_inv in E as (s & f1 & e1 & ss' & e2 & E1 & E2 & -> & ->).
    rewrite count_app.
    destruct (base_ f1) as [w1|] eqn:Hb1.
    + assert (Hc1 : count is_CClose e1 = 0).
      { destruct (Close_or_not o) as [-> | Hnc].
        - change (exec OpClose f) with (Close f) in E1.
          rewrite Close_eq in E1.
          destruct (EmptyBuffer f) as [[[sx fx] ex]| |]; try discriminate.
          destruct (base_ fx); [|discriminate]. destruct (wf_Close w0).
          injection E1 as <- <- <-. discriminate.
        - pose proof (exec_tracks o f Hnc) as T.
          rewrite E1 in T. unfold tracks in T. rewrite Hb in T.
          destruct T as (? & _ & _ & F).
          now apply count_hand_off_or_sync in F. }
      rewrite Hc1. exact (IH _ _ _ _ _ Hb1 E2).
    + (* the writer is gone: the call was Close, and nothing follows *)
      destruct (run_without_base _ _ _ _ _ Hb1 E2) as (Hf' & ->).
      right. split; [assumption|].
      change (count is_CClose []) with 0. rewrite Z.add_0_r.
      destruct (Close_or_not o) as [-> | Hnc].
      * change (exec OpClose f) with (Close f) in E1. rewrite Close_eq in E1.
        pose proof (EmptyBuffer_tracks f) as T.
        destruct (EmptyBuffer f) as [[[sx fx] ex]| |]; try discriminate.
        unfold tracks in T. rewrite Hb in T.
        destruct T as (wx & Hbx & _ & F).
        rewrite Hbx in E1. destruct (wf_Close wx).
        injection E1 as <- <- <-. rewrite count_app.
        apply count_hand_off_or_sync in F as (-> & _). reflexivity.
      * pose proof (exec_tracks o f Hnc) as T.
        rewrite E1 in T. unfold tracks in T. rewrite Hb in T.
        destruct T as (? & Hx & _). congruence.
Qed.

(** X6: the wrapped writer is closed exactly once over the life of the
    object.  For every call sequence on a freshly constructed object that
    returns, followed by the destructor, the wrapped writer receives
    exactly one [Close], either from [Close()] or, failing that, from the
    destructor; the destructor hands no byte over, so what is still in
    the buffer then never reaches the wrapped writer. *)
Theorem closed_exactly_once (w : W) cap ops ss f es :
  run ops (make (Some w) cap) = Returns (ss, f, es) ->
  exists f' es',
    Destructor f = Returns (tt, f', es') /\
    count is_CClose (es ++ es') = 1 /\
    handed_bytes (es ++ es') = handed_bytes es /\
    (base_ f = None -> es' = []).
Proof.
  intros E.
  destruct (run_close_state ops (make (Some w) cap) _ _ _ w eq_refl E)
    as [(Hb & Hc)|(Hb & Hc)].
  - destruct (base_ f) as [w1|] eqn:Hb1; [|contradiction].
    destruct (wf_Close w1) as [sc w2] eqn:Hw.
    exists (set_base (Some w2) f), [(CClose, sc)]. split.
    + unfold Destructor, bind, get, call_base, ret. rewrite Hb1. simpl.
      rewrite Hb1, Hw. reflexivity.
    + rewrite count_app, Hc, handed_bytes_app. simpl.
      rewrite app_nil_r. repeat split. discriminate.
  - exists f, []. split.
    + unfold Destructor, bind, get, ret. rewrite Hb. reflexivity.
    + rewrite app_nil_r. auto.
Qed.

(** *** The byte stream *)

Lemma exec_stream o f s f' e :
  Inv f -> exec o f = Returns (s, f', e) ->
  match o with
  | OpAppend data =>
      ok s = true -> handed_bytes e ++ buf_ f' = buf_ f ++ data
  | _ => handed_bytes e ++ buf_ f' = buf_ f
  end.
Proof.
  intros HI E.
  assert (HE : forall s1 f1 e1, EmptyBuffer f = Returns (s1, f1, e1) ->
                 handed_bytes e1 ++ buf_ f1 = buf_ f).
  { intros s1 f1 e1 E1.
    destruct (EmptyBuffer_cases _ _ _ _ E1)
      as [(Hnil & _ & -> & ->)|(_ & w & w' & _ & _ & -> & ->)];
      [reflexivity|].
    destruct s1; simpl; [now rewrite !app_nil_r | reflexivity]. }
  destruct o; simpl in E.
  - intros Hs. unfold Append in E.
    destruct (Append_fuel_spec _ _ _ _ _ _ HI E) as (_ & _ & _ & Hok & _).
    exact (proj1 (Hok Hs)).
  - rewrite SyncBefore_eq in E. destruct (offset_ f >=? offset).
    + now injection E as <- <- <-.
    + eauto.
  - rewrite Sync_eq in E.
    destruct (EmptyBuffer f) as [[[s1 f1] e1]| |] eqn:E1; try discriminate.
    specialize (HE _ _ _ eq_refl). destruct (ok s1).
    + destruct (base_ f1) as [w|]; [|discriminate].
      destruct (wf_Sync w). injection E as <- <- <-.
      rewrite handed_bytes_app. simpl. now rewrite app_nil_r.
    + now injection E as <- <- <-.
  - now injection E as <- <- <-.
  - eauto.
  - rewrite Close_eq in E.
    destruct (EmptyBuffer f) as [[[s1 f1] e1]| |] eqn:E1; try discriminate.
    specialize (HE _ _ _ eq_refl).
    destruct (base_ f1) as [w|]; [|discriminate].
    destruct (wf_Close w). injection E as <- <- <-.
    rewrite handed_bytes_app. simpl. now rewrite app_nil_r.
Qed.

(** X7: no byte is lost, repeated or reordered while the [Append] calls
    succeed.  After any returning call sequence whose [Append] calls all
    returned success (other calls may have failed), the bytes the wrapped
    writer accepted, followed by the buffer, are the bytes that were in
    the buffer at the start followed by the data of the [Append] calls,
    in call order. *)
Theorem stream_is_conserved ops : forall f ss f' es,
  Inv f -> run ops f = Returns (ss, f', es) ->
  appends_succeeded ops ss = true ->
  handed_bytes es ++ buf_ f' = buf_ f ++ appended ops.
Proof.
  induction ops as [|o ops IH]; intros f ss f' es HI E Hall.
  - injection E as <- <- <-. simpl. now rewrite app_nil_r.
  - apply run_cons_inv in E as (s & f1 & e1 & ss' & e2 & E1 & E2 & -> & ->).
    destruct (exec_inv _ _ _ _ _ HI E1) as (HI1 & _).
    pose proof (exec_stream _ _ _ _ _ HI E1) as Hs.
    rewrite handed_bytes_app, <- app_assoc.
    destruct o; simpl in Hall |- *;
      try (rewrite (IH _ _ _ _ HI1 E2 Hall), app_assoc, Hs; reflexivity).
    apply andb_true_iff in Hall as (Hok & Hall).
    rewrite (IH _ _ _ _ HI1 E2 Hall), app_assoc, (Hs Hok).
    now rewrite <- app_assoc.
Qed.

(** *** The calls [Append] makes *)

Lemma Append_loop_calls fuel : forall s chunk f s' chunk' f' es,
  Inv f -> ok s = true ->
  Append_loop fuel s chunk f = Returns ((s', chunk'), f', es) ->
  Forall (hands_over (max_buf_size_ f)) es /\
  (ok s' = true -> handed es = Z.of_nat (List.length es) * max_buf_size_ f).
Proof.
  induction fuel as [|fuel IH]; intros s chunk f s' chunk' f' es HI Hs E;
    rewrite Append_loop_eq in E;
    destruct (size (buf_ f) + size chunk >=? max_buf_size_ f) eqn:Hc;
    try discriminate;
    try (injection E as <- <- <- <-; split; [constructor | reflexivity]).
  apply geb_true in Hc. cbv zeta in E. rewrite left_exact in E by assumption.
  set (left := max_buf_size_ f - size (buf_ f)) in *.
  destruct (left >? size chunk) eqn:Hl; [discriminate|].
  apply gtb_false in Hl.
  set (f1 := set_buf (buf_ f ++ prefix left chunk) f) in *.
  assert (Hsz1 : size (buf_ f1) = max_buf_size_ f).
  { unfold f1; simpl. destruct HI as (_ & _ & ?).
    rewrite size_app, size_prefix by (unfold left; lia). unfold left. lia. }
  assert (HI1 : Inv f1).
  { destruct HI as (? & ? & ?). unfold Inv. rewrite Hsz1.
    unfold f1; simpl. split; [assumption|]. split; [assumption | lia]. }
  destruct (EmptyBuffer f1) as [[[s1 f2] e1]| |] eqn:E1; try discriminate.
  destruct (EmptyBuffer_inv _ _ _ _ HI1 E1) as (HI2 & Hm2 & _ & Hok & _).
  assert (He1 : Forall (hands_over (max_buf_size_ f)) e1 /\
                (ok s1 = true ->
                 handed e1 = Z.of_nat (List.length e1) * max_buf_size_ f)).
  { destruct (EmptyBuffer_cases _ _ _ _ E1)
      as [(Hnil & _ & _ & ->)|(_ & w & w' & _ & _ & -> & _)].
    - split; [constructor | reflexivity].
    - split; [repeat constructor; now exists (buf_ f1), s1|].
      intros Hs1. apply ok_true in Hs1 as ->. unfold handed.
      cbn [handed_bytes List.length]. rewrite app_nil_r, Hsz1.
      change (Z.of_nat 1) with 1. lia. }
  destruct He1 as (F1 & Hh1).
  destruct (ok s1) eqn:Hs1.
  - destruct (Append_loop fuel s1 (remove_prefix left chunk) f2)
      as [[[[s2 c2] f3] e2]| |] eqn:E2; try discriminate.
    simpl in E. injection E as <- <- <- <-.
    destruct (IH _ _ _ _ _ _ _ HI2 Hs1 E2) as (F2 & Hh2).
    rewrite Hm2 in F2, Hh2. change (max_buf_size_ f1) with (max_buf_size_ f) in *.
    split; [apply Forall_app; now split|].
    intros Hs2. rewrite handed_app, length_app, Hh1, Hh2 by auto. lia.
  - injection E as <- <- <- <-. split; [exact F1 | intros C; congruence].
Qed.

(** X8: the calls [Append] makes on the wrapped writer.  Every call is an
    [Append] of exactly capacity bytes.  When [Append(data)] returns
    success it has made floor((buffered + |data|) / capacity) such calls
    and leaves (buffered + |data|) mod capacity bytes in the buffer. *)
Theorem Append_hands_over_full_buffers data f s f' es :
  Inv f -> Append data f = Returns (s, f', es) ->
  0 < max_buf_size_ f /\
  Forall (hands_over (max_buf_size_ f)) es /\
  (ok s = true ->
     Z.of_nat (List.length es) =
       (size (buf_ f) + size data) / max_buf_size_ f /\
     size (buf_ f') = (size (buf_ f) + size data) mod max_buf_size_ f).
Proof.
  intros HI E.
  assert (Hpos : 0 < max_buf_size_ f).
  { destruct (Z.eq_dec (max_buf_size_ f) 0) as [Hz|Hnz].
    - exfalso. unfold Append in E. rewrite Append_fuel_eq in E.
      rewrite Append_loop_capacity_zero in E; [discriminate | assumption |].
      destruct HI as (_ & _ & Hle). rewrite Hz in Hle.
      pose proof (size_nonneg (buf_ f)). apply size_nil_iff. lia.
    - destruct HI as ((? & _) & _). lia. }
  split; [exact Hpos|].
  pose proof E as E'. unfold Append in E'. rewrite Append_fuel_eq in E'.
  destruct (Append_loop _ OK data f) as [[[[s1 chunk] f1] e]| |] eqn:EL;
    try discriminate.
  destruct (Append_loop_calls _ OK _ _ _ _ _ _ HI eq_refl EL) as (F & Hh).
  assert (Hse : s1 = s /\ e = es).
  { destruct (ok s1); [destruct (size chunk =? 0);
      [|destruct (size (buf_ f1 ++ chunk) <=? max_buf_size_ f1);
        [|discriminate]]|]; now injection E' as <- <- <-. }
  destruct Hse as (-> & ->). split; [exact F|]. intros Hs.
  unfold Append in E.
  destruct (Append_fuel_spec _ _ _ _ _ _ HI E) as (_ & _ & _ & Hok & _).
  destruct (Hok Hs) as (Hcont & Hlt).
  assert (Hsum : size (buf_ f) + size data =
                 Z.of_nat (List.length es) * max_buf_size_ f + size (buf_ f')).
  { rewrite <- (Hh Hs). unfold handed.
    rewrite <- !size_app, Hcont. reflexivity. }
  pose proof (size_nonneg (buf_ f')).
  split.
  - apply Z.div_unique_pos with (r := size (buf_ f')); lia.
  - apply Z.mod_unique_pos with (q := Z.of_nat (List.length es)); lia.
Qed.

(** X9: what [SyncBefore(x)] guarantees.  When it returns success (and the
    bytes accepted so far number fewer than 2^64), every byte before
    position [x] of the stream accepted so far has been handed to the
    wrapped writer: the offset is at least [x], or, when [x] lies beyond
    all accepted bytes, the buffer is empty. *)
Theorem SyncBefore_covers x f s f' es :
  Inv f -> offset_ f + size (buf_ f) < 2 ^ 64 ->
  SyncBefore x f = Returns (s, f', es) -> ok s = true ->
  offset_ f' + size (buf_ f') = offset_ f + size (buf_ f) /\
  (x <= offset_ f' \/ (buf_ f' = [] /\ offset_ f' < x)).
Proof.
  intros HI Hfit E Hs. rewrite SyncBefore_eq in E.
  destruct (offset_ f >=? x) eqn:Hc.
  - injection E as <- <- <-. apply geb_true in Hc. auto.
  - destruct (EmptyBuffer_inv _ _ _ _ HI E) as (_ & _ & Ho & Hok & _).
    destruct (Hok Hs) as (Hbuf & Hh).
    assert (Hoff : offset_ f' = offset_ f + size (buf_ f)).
    { rewrite Ho. unfold handed. rewrite Hh. apply uint64_small.
      destruct HI as (_ & (? & _) & _). pose proof (size_nonneg (buf_ f)).
      unfold in_uint64. lia. }
    rewrite Hbuf. change (size []) with 0. split; [lia|].
    destruct (Z.le_gt_cases x (offset_ f')); [now left | right; auto with zarith].
Qed.

(** Along a returning call sequence that leaves the writer attached, the
    writer has received exactly the recorded calls, all of them hand-offs
    or syncs. *)
Lemma run_tracks ops : forall f ss f' es w w',
  run ops f = Returns (ss, f', es) ->
  base_ f = Some w -> base_ f' = Some w' ->
  replays es w w' /\ Forall hand_off_or_sync es.
Proof.
  induction ops as [|o ops IH]; intros f ss f' es w w' E Hb Hb'.
  - injection E as <- <- <-. rewrite Hb in Hb'. injection Hb' as <-.
    split; constructor.
  - apply run_cons_inv in E as (s & f1 & e1 & ss' & e2 & E1 & E2 & -> & ->).
    destruct (Close_or_not o) as [-> | Hnc].
    + exfalso. change (exec OpClose f) with (Close f) in E1.
      rewrite Close_eq in E1.
      destruct (EmptyBuffer f) as [[[sx fx] ex]| |]; try discriminate.
      destruct (base_ fx); [|discriminate]. destruct (wf_Close w0).
      injection E1 as <- <- <-.
      destruct (run_without_base ops (set_base None fx) _ _ _ eq_refl E2)
        as (C & _).
      congruence.
    + pose proof (exec_tracks o f Hnc) as T.
      rewrite E1 in T. unfold tracks in T. rewrite Hb in T.
      destruct T as (w1 & Hb1 & R1 & F1).
      destruct (IH _ _ _ _ _ _ E2 Hb1 Hb') as (R2 & F2).
      split; [eapply replays_app; eassumption | apply Forall_app; now split].
Qed.

End WithBase.
End BufferedLifecycle.

(** * Call sequences through the measuring decorators *)

Module MeasuredSequences.

Lemma uint32_add_l a b : uint32_t (uint32_t a + b) = uint32_t (a + b).
Proof. unfold uint32_t. now rewrite Zplus_mod_idemp_l. Qed.

Lemma uint64_add_idem a b : uint64_t (uint64_t a + b) = uint64_t (a + b).
Proof. unfold uint64_t. now rewrite Zplus_mod_idemp_l. Qed.

Lemma uint64_in_range z : in_uint64 (uint64_t z).
Proof. unfold in_uint64, uint64_t. apply Z.mod_pos_bound. lia. Qed.

Lemma uint32_in_range z : in_uint32 (uint32_t z).
Proof. unfold in_uint32, uint32_t. apply Z.mod_pos_bound. lia. Qed.

(** X10: [MeasuredWritableFile] is transparent and counts exactly the
    successful traffic.  Any sequence of [Append], [Flush] and [Sync]
    calls made through a decorator with a base returns the statuses the
    same calls return on the base directly and leaves the base in the
    same state; afterwards each counter has grown by the number of
    successful calls of its kind, the byte counter by the total length of
    the successfully appended data (in [uint32_t] and [uint64_t]
    arithmetic). *)
Theorem measured_writer_is_transparent
  {W : Type} `{WritableFile W} (ops : list WOp) :
  forall (m : MeasuredWritableFile.t W) (w : W),
  MeasuredWritableFile.base_ m = Some w ->
  in_uint32 (MeasuredWritableFile.num_syncs_ m) ->
  in_uint32 (MeasuredWritableFile.num_flushes_ m) ->
  in_uint64 (MeasuredWritableFile.bytes_ m) ->
  in_uint64 (MeasuredWritableFile.ops_ m) ->
  wf_run ops m =
    (fst (wf_run ops w),
     MeasuredWritableFile.mk_t (Some (snd (wf_run ops w)))
       (uint32_t (MeasuredWritableFile.num_syncs_ m +
                  total is_WSync ops (fst (wf_run ops w))))
       (uint32_t (MeasuredWritableFile.num_flushes_ m +
                  total is_WFlush ops (fst (wf_run ops w))))
       (uint64_t (MeasuredWritableFile.bytes_ m +
                  total WAppend_size ops (fst (wf_run ops w))))
       (uint64_t (MeasuredWritableFile.ops_ m +
                  total is_WAppend ops (fst (wf_run ops w))))).
Proof.
  induction ops as [|o ops IH]; intros m w Hb Hsy Hfl Hby Hop.
  - destruct m as [b sy fl by_ op]. simpl in *. subst b.
    unfold uint32_t, uint64_t, in_uint32, in_uint64 in *.
    rewrite !Z.add_0_r, !Z.mod_small by assumption. reflexivity.
  - destruct m as [b sy fl by_ op]. simpl in Hb, Hsy, Hfl, Hby, Hop. subst b.
    cbn [wf_run]. 
    assert (Hstep : exists sy1 fl1 by1 op1,
      wf_exec o (MeasuredWritableFile.mk_t (Some w) sy fl by_ op) =
        (fst (wf_exec o w),
         MeasuredWritableFile.mk_t (Some (snd (wf_exec o w))) sy1 fl1 by1 op1)
      /\ sy1 = uint32_t (sy + if ok (fst (wf_exec o w)) then is_WSync o else 0)
      /\ fl1 = uint32_t (fl + if ok (fst (wf_exec o w)) then is_WFlush o else 0)
      /\ by1 = uint64_t (by_ + if ok (fst (wf_exec o w)) then WAppend_size o else 0)
      /\ op1 = uint64_t (op + if ok (fst (wf_exec o w)) then is_WAppend o else 0)).
    { destruct o; simpl;
        unfold MeasuredWritableFile.Append, MeasuredWritableFile.Flush,
          MeasuredWritableFile.Sync; simpl;
        [destruct (wf_Append data w) as [s w1]
        |destruct (wf_Flush w) as [s w1]
        |destruct (wf_Sync w) as [s w1]];
        cbn [fst snd]; destruct (ok s); cbn; do 4 eexists;
        (split; [reflexivity|]); rewrite ?Z.add_0_r;
        repeat split; try reflexivity; symmetry;
        first [now apply MeasuredFacts.uint32_exact
              |now apply MeasuredFacts.uint64_exact]. }
    destruct Hstep as (sy1 & fl1 & by1 & op1 & -> & -> & -> & -> & ->).
    destruct (wf_exec o w) as [s w1]. cbn [fst snd].
    match goal with
    | |- context [wf_run ops (MeasuredWritableFile.mk_t ?b ?c1 ?c2 ?c3 ?c4)] =>
        rewrite (IH (MeasuredWritableFile.mk_t b c1 c2 c3 c4) w1 eq_refl) by
          (cbn; first [apply uint32_in_range | apply uint64_in_range])
    end.
    destruct (wf_run ops w1) as [ss w2]. cbn [fst snd total].
    cbn [MeasuredWritableFile.num_syncs_ MeasuredWritableFile.num_flushes_
         MeasuredWritableFile.bytes_ MeasuredWritableFile.ops_].
    rewrite !uint32_add_l, !uint64_add_idem, !Z.add_assoc. reflexivity.
Qed.

(** X11: [MeasuredSequentialFile] is transparent and counts exactly what
    was read.  Any sequence of [Read] and [Skip] calls made through a
    decorator with a base returns the statuses and result slices the same
    calls return on the base directly and leaves the base in the same
    state; afterwards the operation counter has grown by the number of
    successful reads and the byte counter by the total length of the
    slices they returned.  Skipped bytes and failed reads count for
    nothing. *)
Theorem measured_reader_is_transparent
  {F : Type} `{SequentialFile F} (ops : list SOp) :
  forall (m : MeasuredSequentialFile.t F) (src : F) (result : bytes),
  MeasuredSequentialFile.base_ m = Some src ->
  in_uint64 (MeasuredSequentialFile.bytes_ m) ->
  in_uint64 (MeasuredSequentialFile.ops_ m) ->
  sf_run ops result m =
    (fst (sf_run ops result src),
     MeasuredSequentialFile.mk_t (Some (snd (sf_run ops result src)))
       (uint64_t (MeasuredSequentialFile.bytes_ m +
                  read_bytes ops (fst (sf_run ops result src))))
       (uint64_t (MeasuredSequentialFile.ops_ m +
                  read_ops ops (fst (sf_run ops result src))))).
Proof.
  induction ops as [|o ops IH]; intros m src result Hb Hby Hop.
  - destruct m as [b by_ op]. simpl in *. subst b.
    unfold uint64_t, in_uint64 in *.
    rewrite !Z.add_0_r, !Z.mod_small by assumption. reflexivity.
  - destruct m as [b by_ op]. simpl in Hb, Hby, Hop. subst b.
    destruct o as [n|n]; cbn [sf_run sf_Read sf_Skip
      MeasuredSequentialFile.Measured_SequentialFile].
    + unfold MeasuredSequentialFile.Read, MeasuredSequentialFile.set_base.
      simpl.
      destruct (sf_Read n result src) as [[s r] src1].
      destruct (ok s) eqn:Hs; simpl.
      * rewrite (IH (MeasuredSequentialFile.mk_t (Some src1)
                       (uint64_t (by_ + size r)) (uint64_t (op + 1)))
                    src1 r eq_refl) by (cbn; apply uint64_in_range).
        destruct (sf_run ops r src1) as [rs src2]. cbn [fst snd].
        cbn [read_bytes read_ops MeasuredSequentialFile.bytes_
             MeasuredSequentialFile.ops_]. rewrite Hs.
        rewrite !uint64_add_idem, !Z.add_assoc. reflexivity.
      * rewrite (IH (MeasuredSequentialFile.mk_t (Some src1) by_ op)
                    src1 r eq_refl) by assumption.
        destruct (sf_run ops r src1) as [rs src2]. cbn [fst snd].
        cbn [read_bytes read_ops MeasuredSequentialFile.bytes_
             MeasuredSequentialFile.ops_]. rewrite Hs. reflexivity.
    + unfold MeasuredSequentialFile.Skip, MeasuredSequentialFile.set_base.
      simpl.
      destruct (sf_Skip n src) as [s src1]. simpl.
      rewrite (IH (MeasuredSequentialFile.mk_t (Some src1) by_ op)
                  src1 result eq_refl) by assumption.
      destruct (sf_run ops result src1) as [rs src2]. reflexivity.
Qed.

End MeasuredSequences.

(** * Buffering over a measured writer *)

Module StackedDecorators.
Import UnsafeBufferedWritableFile BufferedFacts BufferedLifecycle.

Section WithBase.
Context {W : Type} `{WritableFile W}.

Lemma handed_cons c s (es : list Event) :
  handed ((c, s) :: es) =
  (match c with CAppend d => if ok s then size d else 0 | _ => 0 end) +
  handed es.
Proof.
  unfold handed. destruct c; try (simpl; lia).
  destruct s; simpl; [apply size_app | lia].
Qed.

Lemma count_cons p (e : Event) es :
  count p (e :: es) = (if p e then 1 else 0) + count p es.
Proof. unfold count. simpl. destruct (p e); cbn [List.length]; lia. Qed.

(** What the recorded hand-offs and syncs do to the counters of a
    measured writer. *)
Lemma measured_replays es (m m' : MeasuredWritableFile.t W) :
  replays es m m' -> Forall hand_off_or_sync es ->
  in_uint32 (MeasuredWritableFile.num_syncs_ m) ->
  in_uint64 (MeasuredWritableFile.bytes_ m) ->
  in_uint64 (MeasuredWritableFile.ops_ m) ->
  MeasuredWritableFile.bytes_ m' =
    uint64_t (MeasuredWritableFile.bytes_ m + handed es) /\
  MeasuredWritableFile.ops_ m' =
    uint64_t (MeasuredWritableFile.ops_ m + count is_ok_CAppend es) /\
  MeasuredWritableFile.num_syncs_ m' =
    uint32_t (MeasuredWritableFile.num_syncs_ m + count is_ok_CSync es) /\
  MeasuredWritableFile.num_flushes_ m' = MeasuredWritableFile.num_flushes_ m.
Proof.
  induction 1 as [m|c s es m m1 m2 Hc _ IH]; intros F Hsy Hby Hop.
  - change (handed []) with 0. change (count is_ok_CAppend []) with 0.
    change (count is_ok_CSync []) with 0. rewrite !Z.add_0_r.
    rewrite !MeasuredFacts.uint64_exact, MeasuredFacts.uint32_exact
      by assumption. auto.
  - inversion F as [|e es' (Hcl & Hfl) F']; subst.
    rewrite handed_cons, !count_cons.
    assert (Hstep :
      MeasuredWritableFile.bytes_ m1 =
        uint64_t (MeasuredWritableFile.bytes_ m +
                  match c with
                  | CAppend d => if ok s then size d else 0
                  | _ => 0
                  end) /\
      MeasuredWritableFile.ops_ m1 =
        uint64_t (MeasuredWritableFile.ops_ m +
                  if is_ok_CAppend (c, s) then 1 else 0) /\
      MeasuredWritableFile.num_syncs_ m1 =
        uint32_t (MeasuredWritableFile.num_syncs_ m +
                  if is_ok_CSync (c, s) then 1 else 0) /\
      MeasuredWritableFile.num_flushes_ m1 =
        MeasuredWritableFile.num_flushes_ m).
    { destruct m as [b sy fl by_ op]. simpl in Hsy, Hby, Hop.
      destruct c; try discriminate; simpl in Hc;
        [unfold MeasuredWritableFile.Append in Hc
        |unfold MeasuredWritableFile.Sync in Hc];
        simpl in Hc; destruct b as [w|];
        try (injection Hc as <- <-; simpl; rewrite !Z.add_0_r;
             rewrite !MeasuredFacts.uint64_exact, MeasuredFacts.uint32_exact
               by assumption; auto);
        [destruct (wf_Append data w) as [s0 w1]
        |destruct (wf_Sync w) as [s0 w1]];
        destruct (ok s0) eqn:Hs0; injection Hc as <- <-; simpl;
        rewrite ?Hs0, ?Z.add_0_r;
        rewrite ?MeasuredFacts.uint64_exact, ?MeasuredFacts.uint32_exact
          by assumption; auto. }
    destruct Hstep as (Hb1 & Ho1 & Hs1 & Hf1).
    destruct IH as (Hb2 & Ho2 & Hs2 & Hf2); try assumption;
      try (rewrite ?Hb1, ?Ho1, ?Hs1;
           first [apply MeasuredSequences.uint64_in_range
                 |apply MeasuredSequences.uint32_in_range]).
    rewrite Hb2, Ho2, Hs2, Hf2, Hb1, Ho1, Hs1, Hf1.
    rewrite !MeasuredSequences.uint64_add_idem, MeasuredSequences.uint32_add_l,
      !Z.add_assoc.
    auto.
Qed.

(** X12: buffering over a measured writer.  When an
    [UnsafeBufferedWritableFile] is constructed over a fresh
    [MeasuredWritableFile], then after any returning call sequence that
    has not closed the file the byte counter of the measured writer equals
    the offset of the buffered file, its operation counter is the number
    of successful hand-offs, its sync counter the number of successful
    syncs, and its flush counter is still zero: the buffered file never
    forwards [Flush]. *)
Theorem buffered_over_measured (w : W) cap ops ss f es
  (m : MeasuredWritableFile.t W) :
  in_uint64 cap ->
  run ops (make (Some (MeasuredWritableFile.make (Some w))) cap) =
    Returns (ss, f, es) ->
  base_ f = Some m ->
  MeasuredWritableFile.TotalBytes m = offset_ f /\
  MeasuredWritableFile.TotalOps m = uint64_t (count is_ok_CAppend es) /\
  MeasuredWritableFile.NumSyncs m = uint32_t (count is_ok_CSync es) /\
  MeasuredWritableFile.NumFlushes m = 0 /\
  count is_CFlush es = 0.
Proof.
  intros Hcap E Hb.
  set (m0 := MeasuredWritableFile.make (Some w)) in *.
  assert (HI0 : Inv (make (Some m0) cap)).
  { unfold Inv, make, in_uint64 in *; simpl. change (size []) with 0. lia. }
  destruct (run_inv _ _ _ _ _ HI0 E) as (_ & _ & Ho).
  destruct (run_tracks _ _ _ _ _ m0 m E eq_refl Hb) as (R & F).
  destruct (measured_replays _ _ _ R F) as (Hby & Hop & Hsy & Hfl);
    try (unfold in_uint32, in_uint64; simpl; lia).
  unfold MeasuredWritableFile.TotalBytes, MeasuredWritableFile.TotalOps,
    MeasuredWritableFile.NumSyncs, MeasuredWritableFile.NumFlushes.
  rewrite Hby, Hop, Hsy, Hfl, Ho. simpl.
  repeat split. now apply count_hand_off_or_sync in F.
Qed.

End WithBase.
End StackedDecorators.

(** * Reads of WholeFileBufferedRandomAccessFile as ranges of the loaded bytes *)

Module WholeFileRanges.
Import WholeFileBufferedRandomAccessFile.

Section WithBase.
Context {F : Type} `{SequentialFile F}.

(** The bytes a read yields are the requested range of the first
    [buf_size_] bytes of the array, cut off at their end. *)
Lemma Read_bytes (f : t F) (offset n : Z) :
  in_uint64 offset -> in_uint64 n -> in_uint64 (buf_size_ f) ->
  buf_size_ f <= size (buf_ f) ->
  view_bytes f (snd (Read offset n f)) =
    prefix n (remove_prefix offset (prefix (buf_size_ f) (buf_ f))).
Proof.
  unfold in_uint64. intros Ho Hn Hb Hle. unfold Read, prefix, remove_prefix.
  destruct (offset <? buf_size_ f) eqn:Hlt.
  - apply Z.ltb_lt in Hlt.
    assert (Hd : size_t (buf_size_ f - offset) = buf_size_ f - offset)
      by (unfold size_t; apply Z.mod_small; lia).
    rewrite Hd. cbn [snd view_bytes]. unfold prefix, remove_prefix.
    rewrite skipn_firstn_comm, firstn_firstn. f_equal.
    rewrite Z.gtb_ltb.
    destruct (buf_size_ f - offset <? n) eqn:Hc;
      [apply Z.ltb_lt in Hc | apply Z.ltb_ge in Hc]; lia.
  - apply Z.ltb_ge in Hlt. cbn [snd view_bytes].
    rewrite skipn_all2; [now rewrite firstn_nil|].
    rewrite length_firstn. unfold size in Hle. lia.
Qed.

Lemma firstn_plus {A : Type} (a b : nat) : forall l : list A,
  firstn (a + b) l = firstn a l ++ firstn b (skipn a l).
Proof.
  induction a as [|a IH]; intros [|x l]; simpl;
    rewrite ?firstn_nil; try reflexivity.
  f_equal. apply IH.
Qed.

(** X13: reads are ranges of the loaded bytes.  [Read(offset, n)] yields
    bytes [offset, offset + n) of the first [buf_size_] bytes of the
    array, cut off at their end, so no byte of the array beyond the
    buffered length is ever exposed; and a read of [n1 + n2] bytes yields
    what a read of [n1] bytes followed by a read of [n2] bytes at
    [offset + n1] yields. *)
Theorem Read_serves_loaded_bytes (f : t F) (offset n1 n2 : Z) :
  in_uint64 offset -> in_uint64 n1 -> in_uint64 n2 ->
  in_uint64 (offset + n1) -> in_uint64 (n1 + n2) ->
  in_uint64 (buf_size_ f) -> buf_size_ f <= size (buf_ f) ->
  let loaded := prefix (buf_size_ f) (buf_ f) in
  view_bytes f (snd (Read offset n1 f)) =
    prefix n1 (remove_prefix offset loaded) /\
  view_bytes f (snd (Read offset (n1 + n2) f)) =
    view_bytes f (snd (Read offset n1 f)) ++
    view_bytes f (snd (Read (offset + n1) n2 f)) /\
  view_bytes f (snd (Read 0 (buf_size_ f) f)) = loaded.
Proof.
  intros Ho H1 H2 Ho1 H12 Hb Hle loaded.
  assert (H0 : in_uint64 0) by (unfold in_uint64; lia).
  rewrite !Read_bytes by assumption. fold loaded.
  split; [reflexivity|]. split.
  - unfold prefix, remove_prefix. unfold in_uint64 in *.
    rewrite !Z2Nat.inj_add by lia.
    rewrite firstn_plus, skipn_skipn. do 3 f_equal. lia.
  - unfold prefix, remove_prefix. simpl skipn.
    apply firstn_all2. unfold loaded, prefix. rewrite length_firstn. lia.
Qed.

End WithBase.
End WholeFileRanges.

(** * File names of PosixFio *)

Module PosixFioFacts.
Import PosixFio.

Lemma hex_digit_not_NUL d : hex_digit d <> x00.
Proof.
  unfold hex_digit. destruct d as [|p]; [discriminate|].
  do 4 (try (destruct p as [p|p|]; try discriminate)).
Qed.

Lemma hex_printable key : printable (hex key).
Proof.
  unfold printable, hex. induction key as [|c key IH]; simpl.
  - constructor.
  - repeat constructor; try apply hex_digit_not_NUL. exact IH.
Qed.

Lemma length_hex key : List.length (hex key) = (2 * List.length key)%nat.
Proof. unfold hex. induction key as [|c key IH]; simpl; lia. Qed.

Lemma c_str_stops (written garbage : bytes) :
  printable written -> c_str (written ++ x00 :: garbage) = written.
Proof.
  induction 1 as [|c l Hc _ IH]; simpl; [reflexivity|].
  destruct (Byte.eqb c x00) eqn:E; [|now rewrite IH].
  apply Byte.byte_dec_bl in E. contradiction.
Qed.

(** [sprintf] at the end of what has been written so far. *)
Lemma sprintf_extends (written garbage text : bytes) :
  sprintf (written ++ x00 :: garbage) (List.length written) text =
  if (List.length text <=? List.length garbage)%nat
  then Returns ((written ++ text) ++ x00 ::
                skipn (List.length text) garbage)
  else Faults OutOfBounds.
Proof.
  unfold sprintf. rewrite length_app. cbn [List.length].
  destruct (List.length text <=? List.length garbage)%nat eqn:Hc.
  - apply Nat.leb_le in Hc.
    assert (Hle : (List.length written + List.length text + 1 <=?
                   List.length written + S (List.length garbage))%nat = true)
      by (apply Nat.leb_le; lia).
    rewrite Hle. f_equal.
    rewrite firstn_app, Nat.sub_diag, firstn_all, firstn_O, app_nil_r.
    rewrite <- app_assoc. do 2 f_equal. simpl. f_equal.
    rewrite skipn_app.
    replace (List.length written + List.length text + 1 - List.length written)%nat
      with (S (List.length text)) by lia.
    rewrite skipn_all2 by lia. reflexivity.
  - apply Nat.leb_gt in Hc.
    assert (Hle : (List.length written + List.length text + 1 <=?
                   List.length written + S (List.length garbage))%nat = false)
      by (apply Nat.leb_gt; lia).
    now rewrite Hle.
Qed.

(** The loop, started where the text written so far ends. *)
Lemma ToFileName_loop_spec key : forall written garbage,
  ((2 * List.length key <= List.length garbage)%nat ->
   exists garbage',
     ToFileName_loop key (List.length written) (written ++ x00 :: garbage) =
       Returns ((written ++ hex key) ++ x00 :: garbage')) /\
  ((List.length garbage < 2 * List.length key)%nat ->
   ToFileName_loop key (List.length written) (written ++ x00 :: garbage) =
     Faults OutOfBounds).
Proof.
  induction key as [|c key IH]; intros written garbage.
  - split.
    + intros _. exists garbage. unfold hex. simpl. now rewrite app_nil_r.
    + simpl. lia.
  - cbn [ToFileName_loop]. rewrite sprintf_extends.
    change (List.length (format_02X c)) with 2%nat.
    cbn [List.length]. split.
    + intros Hle.
      assert (Hc : (2 <=? List.length garbage)%nat = true)
        by (apply Nat.leb_le; lia).
      rewrite Hc.
      destruct (IH (written ++ format_02X c) (skipn 2 garbage)) as (Hok & _).
      rewrite length_app in Hok. change (List.length (format_02X c)) with 2%nat in Hok.
      destruct Hok as (g' & Hg); [rewrite length_skipn; lia|].
      exists g'. rewrite Hg. unfold hex. simpl flat_map.
      now rewrite <- !app_assoc.
    + intros Hlt.
      destruct (2 <=? List.length garbage)%nat eqn:Hc; [|reflexivity].
      apply Nat.leb_le in Hc.
      destruct (IH (written ++ format_02X c) (skipn 2 garbage)) as (_ & Hko).
      rewrite length_app in Hko. change (List.length (format_02X c)) with 2%nat in Hko.
      apply Hko. rewrite length_skipn. lia.
Qed.

(** Two digits read back give the byte. *)
Lemma unhex_format_02X c rest : unhex (format_02X c ++ rest) = c :: unhex rest.
Proof. destruct c; reflexivity. Qed.

Lemma unhex_hex key : unhex (hex key) = key.
Proof.
  unfold hex. induction key as [|c key IH]; [reflexivity|].
  cbn [flat_map]. now rewrite unhex_format_02X, IH.
Qed.

Section WithFentry.
Variable ExtractUntypedKeyPrefix : bytes -> bytes.

(** X14: the name [ToFileName] builds, and the bound of its array.  For a
    key prefix of at most 98 bytes the result is "F_" followed by two
    upper-case hexadecimal digits per byte of the prefix, whatever the
    array held before; its length is 2 + 2 * (length of the prefix).  A
    longer key prefix makes [sprintf] write past the end of [tmp[200]]. *)
Theorem ToFileName_result (mem encoding : bytes) :
  List.length mem = tmp_size ->
  let key := ExtractUntypedKeyPrefix encoding in
  (size key <= 98 ->
     ToFileName ExtractUntypedKeyPrefix mem encoding =
       Returns (str "F_" ++ hex key) /\
     size (str "F_" ++ hex key) = 2 + 2 * size key) /\
  (98 < size key ->
     ToFileName ExtractUntypedKeyPrefix mem encoding = Faults OutOfBounds).
Proof.
  intros Hmem key. unfold ToFileName. fold key.
  assert (Hfirst : sprintf mem 0 (str "F_") =
                   Returns (str "F_" ++ x00 :: skipn 3 mem)).
  { unfold sprintf. rewrite Hmem. reflexivity. }
  rewrite Hfirst.
  destruct (ToFileName_loop_spec key (str "F_") (skipn 3 mem))
    as (Hok & Hko).
  rewrite length_skipn, Hmem in Hok, Hko. unfold tmp_size in Hok, Hko.
  change (List.length (str "F_")) with 2%nat in Hok, Hko.
  unfold size. split.
  - intros Hle. destruct Hok as (g' & ->); [lia|].
    rewrite c_str_stops.
    + split; [reflexivity|]. rewrite length_app, length_hex.
      change (List.length (str "F_")) with 2%nat. lia.
    + apply Forall_app. split; [|apply hex_printable].
      repeat constructor; discriminate.
  - intros Hlt. rewrite Hko; [reflexivity | lia].
Qed.

(** X15: distinct keys get distinct files.  When [ToFileName] returns the
    same name for two entries, their key prefixes are equal, whatever the
    arrays held; and so for the paths [root_ + "/" + name] under one
    root.  The key prefix can be read back from the name. *)
Theorem file_names_are_distinct (mem1 mem2 a b name root_ path : bytes) :
  List.length mem1 = tmp_size -> List.length mem2 = tmp_size ->
  (ToFileName ExtractUntypedKeyPrefix mem1 a = Returns name ->
   unhex (skipn 2 name) = ExtractUntypedKeyPrefix a) /\
  (ToFileName ExtractUntypedKeyPrefix mem1 a = Returns name ->
   ToFileName ExtractUntypedKeyPrefix mem2 b = Returns name ->
   ExtractUntypedKeyPrefix a = ExtractUntypedKeyPrefix b) /\
  (fname ExtractUntypedKeyPrefix root_ mem1 a = Returns path ->
   fname ExtractUntypedKeyPrefix root_ mem2 b = Returns path ->
   ExtractUntypedKeyPrefix a = ExtractUntypedKeyPrefix b).
Proof.
  intros H1 H2.
  assert (Hname : forall mem e n, List.length mem = tmp_size ->
            ToFileName ExtractUntypedKeyPrefix mem e = Returns n ->
            n = str "F_" ++ hex (ExtractUntypedKeyPrefix e)).
  { intros mem e n Hm E. unfold ToFileName in E.
    assert (Hfirst : sprintf mem 0 (str "F_") =
                     Returns (str "F_" ++ x00 :: skipn 3 mem)).
    { unfold sprintf. rewrite Hm. reflexivity. }
    rewrite Hfirst in E.
    destruct (ToFileName_loop_spec (ExtractUntypedKeyPrefix e) (str "F_")
                (skipn 3 mem)) as (Hok & Hko).
    change (List.length (str "F_")) with 2%nat in Hok, Hko.
    destruct (Nat.le_gt_cases (2 * List.length (ExtractUntypedKeyPrefix e))
                (List.length (skipn 3 mem))) as [Hc|Hc].
    - destruct (Hok Hc) as (g' & Hg). rewrite Hg in E.
      rewrite c_str_stops in E; [now injection E as <-|].
      apply Forall_app. split; [|apply hex_printable].
      repeat constructor; discriminate.
    - rewrite (Hko Hc) in E. discriminate. }
  assert (Hback : forall mem e n, List.length mem = tmp_size ->
            ToFileName ExtractUntypedKeyPrefix mem e = Returns n ->
            unhex (skipn 2 n) = ExtractUntypedKeyPrefix e).
  { intros mem e n Hm E. rewrite (Hname _ _ _ Hm E).
    change (skipn 2 (str "F_" ++ ?h)) with h. cbn [skipn str app].
    apply unhex_hex. }
  split; [intros E; exact (Hback _ _ _ H1 E)|]. split.
  - intros Ea Eb. rewrite <- (Hback _ _ _ H1 Ea). exact (Hback _ _ _ H2 Eb).
  - unfold fname. intros Ea Eb.
    destruct (ToFileName ExtractUntypedKeyPrefix mem1 a) as [na| |] eqn:Na;
      try discriminate.
    destruct (ToFileName ExtractUntypedKeyPrefix mem2 b) as [nb| |] eqn:Nb;
      try discriminate.
    injection Ea as <-. injection Eb as Eb.
    apply app_inv_head in Eb. injection Eb as ->.
    rewrite <- (Hback _ _ _ H1 Na). exact (Hback _ _ _ H2 Nb).
Qed.

End WithFentry.
End PosixFioFacts.

(** * Concrete runs of the properties above *)

Module Scenarios.
Import UnsafeBufferedWritableFile BufferedFacts BufferedLifecycle.

(** A flush that succeeds followed by a [Sync] of the writer that fails:
    the failure is returned, and the buffer has been handed over. *)
Lemma Sync_contract_witness :
  let f := mk_t (Some fails_second) 0 10 (str "abc") in
  let f' := mk_t (Some (mkScripted [] (str "abc"))) 3 10 [] in
  let es := [(CAppend (str "abc"), OK); (CSync, IOError [])] in
  Inv f /\ Sync f = Returns (IOError [], f', es) /\
  exists es0, es = es0 ++ [(CSync, IOError [])] /\
              handed_bytes es0 = buf_ f /\ buf_ f' = [].
Proof.
  cbv zeta.
  set (f := mk_t (Some fails_second) 0 10 (str "abc")).
  assert (HI : Inv f) by (unfold Inv, in_uint64, f, size; simpl; lia).
  assert (E : Sync f =
              Returns (IOError [],
                       mk_t (Some (mkScripted [] (str "abc"))) 3 10 [],
                       [(CAppend (str "abc"), OK); (CSync, IOError [])]))
    by (vm_compute; reflexivity).
  split; [exact HI|]. split; [exact E|].
  destruct (Sync_contract _ _ _ _ HI E)
    as [(es0 & Hes & _ & Hh & Hb & _)|(_ & Hes & _)]; [|discriminate Hes].
  exists es0. auto.
Defined.

(** The hand-off succeeds and the writer's own [Close] fails: [Close]
    returns success. *)
Lemma Close_contract_witness :
  let f := mk_t (Some fails_second) 0 10 (str "abc") in
  let f' := mk_t None 3 10 [] in
  let es := [(CAppend (str "abc"), OK); (CClose, IOError [])] in
  Inv f /\ Close f = Returns (OK, f', es) /\
  base_ f' = None /\
  exists es0 sc, es = es0 ++ [(CClose, sc)] /\ count is_CClose es0 = 0.
Proof.
  cbv zeta.
  set (f := mk_t (Some fails_second) 0 10 (str "abc")).
  assert (HI : Inv f) by (unfold Inv, in_uint64, f, size; simpl; lia).
  assert (E : Close f =
              Returns (OK, mk_t None 3 10 [],
                       [(CAppend (str "abc"), OK); (CClose, IOError [])]))
    by (vm_compute; reflexivity).
  split; [exact HI|]. split; [exact E|].
  destruct (Close_contract _ _ _ _ HI E) as (Hb & es0 & sc & Hes & Hc & _).
  split; [exact Hb|]. exists es0, sc. auto.
Defined.

(** A [Close] whose hand-off fails, and calls on the object afterwards. *)
Lemma use_after_Close_witness :
  let f := mk_t (Some fails_once) 0 10 (str "abc") in
  let f' := mk_t None 0 10 (str "abc") in
  let es := [(CAppend (str "abc"), IOError []); (CClose, OK)] in
  Inv f /\ Close f = Returns (IOError [], f', es) /\
  Close f' = Faults NullDeref /\ Sync f' = Faults NullDeref /\
  EmptyBuffer f' = Faults NullDeref.
Proof.
  cbv zeta.
  set (f := mk_t (Some fails_once) 0 10 (str "abc")).
  assert (HI : Inv f) by (unfold Inv, in_uint64, f, size; simpl; lia).
  assert (E : Close f =
              Returns (IOError [], mk_t None 0 10 (str "abc"),
                       [(CAppend (str "abc"), IOError []); (CClose, OK)]))
    by (vm_compute; reflexivity).
  split; [exact HI|]. split; [exact E|].
  destruct (use_after_Close _ _ _ _ HI E) as (Hc & Hs & _ & Hko).
  split; [exact Hc|]. split; [exact Hs|]. exact (proj1 (Hko eq_refl)).
Defined.

(** A life without [Close]: two bytes are still buffered when the
    destructor closes the writer. *)
Lemma closed_exactly_once_witness :
  let ops := [OpAppend (str "abcdefg"); OpAppend (str "xyzuv"); OpSync;
              OpAppend (str "pq")] in
  let f := mk_t (Some (mkScripted [] (str "abcdefgxyzuv"))) 12 10 (str "pq") in
  let es := [(CAppend (str "abcdefgxyz"), OK); (CAppend (str "uv"), OK);
             (CSync, OK)] in
  run ops (make (Some reliable) 10) = Returns ([OK; OK; OK; OK], f, es) /\
  exists f' es',
    Destructor f = Returns (tt, f', es') /\
    count is_CClose (es ++ es') = 1 /\
    handed_bytes (es ++ es') = handed_bytes es.
Proof.
  cbv zeta.
  assert (E : run [OpAppend (str "abcdefg"); OpAppend (str "xyzuv"); OpSync;
                   OpAppend (str "pq")] (make (Some reliable) 10) =
              Returns ([OK; OK; OK; OK],
                       mk_t (Some (mkScripted [] (str "abcdefgxyzuv"))) 12 10
                            (str "pq"),
                       [(CAppend (str "abcdefgxyz"), OK);
                        (CAppend (str "uv"), OK); (CSync, OK)]))
    by (vm_compute; reflexivity).
  split; [exact E|].
  destruct (closed_exactly_once _ _ _ _ _ _ E) as (f' & es' & Hd & Hc & Hh & _).
  exists f', es'. auto.
Defined.

(** A sequence in which a [Sync] fails but every [Append] succeeds. *)
Lemma stream_is_conserved_witness :
  let ops := [OpAppend (str "abcdefg"); OpSync; OpAppend (str "xyzuv")] in
  let f := mk_t (Some fails_once) 0 10 [] in
  let f' := mk_t (Some (mkScripted [] (str "abcdefgxyz"))) 10 10 (str "uv") in
  let es := [(CAppend (str "abcdefg"), IOError []);
             (CAppend (str "abcdefgxyz"), OK)] in
  let ss := [OK; IOError []; OK] in
  Inv f /\ run ops f = Returns (ss, f', es) /\
  appends_succeeded ops ss = true /\
  handed_bytes es ++ buf_ f' = str "abcdefgxyzuv".
Proof.
  cbv zeta.
  set (f := mk_t (Some fails_once) 0 10 []).
  assert (HI : Inv f) by (unfold Inv, in_uint64, f, size; simpl; lia).
  assert (E : run [OpAppend (str "abcdefg"); OpSync; OpAppend (str "xyzuv")] f =
              Returns ([OK; IOError []; OK],
                       mk_t (Some (mkScripted [] (str "abcdefgxyz"))) 10 10
                            (str "uv"),
                       [(CAppend (str "abcdefg"), IOError []);
                        (CAppend (str "abcdefgxyz"), OK)]))
    by (vm_compute; reflexivity).
  split; [exact HI|]. split; [exact E|]. split; [reflexivity|].
  exact (stream_is_conserved _ _ _ _ _ HI E eq_refl).
Defined.

(** Capacity 4 with two bytes buffered and eleven appended: three full
    hand-offs, one byte left. *)
Lemma Append_hands_over_full_buffers_witness :
  let f := mk_t (Some reliable) 0 4 (str "ab") in
  let f' := mk_t (Some (mkScripted [] (str "abcdefghijkl"))) 12 4 (str "m") in
  let es := [(CAppend (str "abcd"), OK); (CAppend (str "efgh"), OK);
             (CAppend (str "ijkl"), OK)] in
  Inv f /\ Append (str "cdefghijklm") f = Returns (OK, f', es) /\
  Z.of_nat (List.length es) = (2 + 11) / 4 /\
  size (buf_ f') = (2 + 11) mod 4.
Proof.
  cbv zeta.
  set (f := mk_t (Some reliable) 0 4 (str "ab")).
  assert (HI : Inv f) by (unfold Inv, in_uint64, f, size; simpl; lia).
  assert (E : Append (str "cdefghijklm") f =
              Returns (OK,
                       mk_t (Some (mkScripted [] (str "abcdefghijkl"))) 12 4
                            (str "m"),
                       [(CAppend (str "abcd"), OK); (CAppend (str "efgh"), OK);
                        (CAppend (str "ijkl"), OK)]))
    by (vm_compute; reflexivity).
  split; [exact HI|]. split; [exact E|].
  destruct (Append_hands_over_full_buffers _ _ _ _ _ HI E) as (_ & _ & Hok).
  exact (Hok eq_refl).
Defined.

(** Three bytes buffered behind an offset of 10: [SyncBefore(12)] hands
    them over and the offset covers 12. *)
Lemma SyncBefore_covers_witness :
  let f := mk_t (Some reliable) 10 10 (str "abc") in
  let f' := mk_t (Some (mkScripted [] (str "abc"))) 13 10 [] in
  Inv f /\ offset_ f + size (buf_ f) < 2 ^ 64 /\
  SyncBefore 12 f = Returns (OK, f', [(CAppend (str "abc"), OK)]) /\
  ok OK = true /\
  (12 <= offset_ f' \/ (buf_ f' = [] /\ offset_ f' < 12)).
Proof.
  cbv zeta.
  set (f := mk_t (Some reliable) 10 10 (str "abc")).
  assert (HI : Inv f) by (unfold Inv, in_uint64, f, size; simpl; lia).
  assert (Hfit : offset_ f + size (buf_ f) < 2 ^ 64)
    by (unfold f, size; simpl; lia).
  assert (E : SyncBefore 12 f =
              Returns (OK, mk_t (Some (mkScripted [] (str "abc"))) 13 10 [],
                       [(CAppend (str "abc"), OK)]))
    by (vm_compute; reflexivity).
  split; [exact HI|]. split; [exact Hfit|]. split; [exact E|].
  split; [reflexivity|].
  exact (proj2 (SyncBefore_covers _ _ _ _ _ HI Hfit E eq_refl)).
Defined.

(** A measured writer over a writer whose second call fails. *)
Lemma measured_writer_is_transparent_witness :
  let m := MeasuredWritableFile.make (Some fails_second) in
  let ops := [WAppend (str "abc"); WAppend (str "de"); WFlush; WSync;
              WAppend (str "fgh")] in
  MeasuredWritableFile.base_ m = Some fails_second /\
  in_uint32 (MeasuredWritableFile.num_syncs_ m) /\
  in_uint32 (MeasuredWritableFile.num_flushes_ m) /\
  in_uint64 (MeasuredWritableFile.bytes_ m) /\
  in_uint64 (MeasuredWritableFile.ops_ m) /\
  wf_run ops m =
    ([OK; IOError []; OK; OK; OK],
     MeasuredWritableFile.mk_t (Some (mkScripted [] (str "abcfgh"))) 1 1 6 2).
Proof.
  cbv zeta.
  assert (H32 : in_uint32 0) by (unfold in_uint32; lia).
  assert (H64 : in_uint64 0) by (unfold in_uint64; lia).
  split; [reflexivity|]. do 4 (split; [assumption|]).
  rewrite (MeasuredSequences.measured_writer_is_transparent
             [WAppend (str "abc"); WAppend (str "de"); WFlush; WSync;
              WAppend (str "fgh")]
             (MeasuredWritableFile.make (Some fails_second)) fails_second
             eq_refl H32 H32 H64 H64).
  vm_compute. reflexivity.
Defined.

(** A measured reader over five bytes: a read, a skip, a short read and a
    read at the end. *)
Lemma measured_reader_is_transparent_witness :
  let m := MeasuredSequentialFile.make (Some (mkSource (str "hello") false)) in
  let ops := [SRead 2; SSkip 1; SRead 8; SRead 4] in
  MeasuredSequentialFile.base_ m = Some (mkSource (str "hello") false) /\
  in_uint64 (MeasuredSequentialFile.bytes_ m) /\
  in_uint64 (MeasuredSequentialFile.ops_ m) /\
  sf_run ops [] m =
    ([(OK, str "he"); (OK, str "he"); (OK, str "lo"); (OK, [])],
     MeasuredSequentialFile.mk_t (Some (mkSource [] false)) 4 3).
Proof.
  cbv zeta.
  assert (H64 : in_uint64 0) by (unfold in_uint64; lia).
  split; [reflexivity|]. do 2 (split; [assumption|]).
  rewrite (MeasuredSequences.measured_reader_is_transparent
             [SRead 2; SSkip 1; SRead 8; SRead 4]
             (MeasuredSequentialFile.make (Some (mkSource (str "hello") false)))
             (mkSource (str "hello") false) [] eq_refl H64 H64).
  vm_compute. reflexivity.
Defined.

(** Capacity 4 over a measured writer: twelve bytes appended, one flush
    ignored, one sync. *)
Lemma buffered_over_measured_witness :
  let ops := [OpAppend (str "abcdef"); OpFlush; OpAppend (str "ghijk");
              OpSync; OpAppend (str "l")] in
  let m := MeasuredWritableFile.mk_t
             (Some (mkScripted [] (str "abcdefghijk"))) 1 0 11 3 in
  let f := mk_t (Some m) 11 4 (str "l") in
  let es := [(CAppend (str "abcd"), OK); (CAppend (str "efgh"), OK);
             (CAppend (str "ijk"), OK); (CSync, OK)] in
  in_uint64 4 /\
  run ops (make (Some (MeasuredWritableFile.make (Some reliable))) 4) =
    Returns ([OK; OK; OK; OK; OK], f, es) /\
  base_ f = Some m /\
  MeasuredWritableFile.TotalBytes m = offset_ f /\
  MeasuredWritableFile.NumFlushes m = 0.
Proof.
  cbv zeta.
  assert (Hcap : in_uint64 4) by (unfold in_uint64; lia).
  assert (E : run [OpAppend (str "abcdef"); OpFlush; OpAppend (str "ghijk");
                   OpSync; OpAppend (str "l")]
                  (make (Some (MeasuredWritableFile.make (Some reliable))) 4) =
              Returns ([OK; OK; OK; OK; OK],
                       mk_t (Some (MeasuredWritableFile.mk_t
                                     (Some (mkScripted [] (str "abcdefghijk")))
                                     1 0 11 3)) 11 4 (str "l"),
                       [(CAppend (str "abcd"), OK); (CAppend (str "efgh"), OK);
                        (CAppend (str "ijk"), OK); (CSync, OK)]))
    by (vm_compute; reflexivity).
  split; [exact Hcap|]. split; [exact E|]. split; [reflexivity|].
  destruct (StackedDecorators.buffered_over_measured _ _ _ _ _ _ _ Hcap E eq_refl)
    as (Hb & _ & _ & Hf & _).
  split; [exact Hb | exact Hf].
Defined.

(** Capacity 8 with five bytes loaded: the two halves of a read of six
    bytes at offset 1. *)
Lemma Read_serves_loaded_bytes_witness :
  let f := WholeFileBufferedRandomAccessFile.mk_t
             (@None StringSource) 8 4096 5 (str "helloXYZ") in
  in_uint64 1 /\ in_uint64 2 /\ in_uint64 4 /\ in_uint64 (1 + 2) /\
  in_uint64 (2 + 4) /\
  in_uint64 (WholeFileBufferedRandomAccessFile.buf_size_ f) /\
  WholeFileBufferedRandomAccessFile.buf_size_ f <=
    size (WholeFileBufferedRandomAccessFile.buf_ f) /\
  WholeFileBufferedRandomAccessFile.view_bytes f
    (snd (WholeFileBufferedRandomAccessFile.Read 1 (2 + 4) f)) =
  WholeFileBufferedRandomAccessFile.view_bytes f
    (snd (WholeFileBufferedRandomAccessFile.Read 1 2 f)) ++
  WholeFileBufferedRandomAccessFile.view_bytes f
    (snd (WholeFileBufferedRandomAccessFile.Read (1 + 2) 4 f)).
Proof.
  cbv zeta.
  assert (R : forall z, 0 <= z < 100 -> in_uint64 z)
    by (unfold in_uint64; lia).
  assert (Hle : 5 <= size (str "helloXYZ")) by (unfold size; simpl; lia).
  do 6 (split; [apply R; simpl; lia|]). split; [exact Hle|].
  exact (proj1 (proj2 (WholeFileRanges.Read_serves_loaded_bytes
    (WholeFileBufferedRandomAccessFile.mk_t (@None StringSource) 8 4096 5
       (str "helloXYZ")) 1 2 4
    (R 1 ltac:(lia)) (R 2 ltac:(lia)) (R 4 ltac:(lia))
    (R (1 + 2) ltac:(lia)) (R (2 + 4) ltac:(lia)) (R 5 ltac:(lia)) Hle))).
Defined.

(** A three-byte key prefix, taken to be the whole entry. *)
Lemma ToFileName_result_witness :
  let mem := repeat "x"%byte 200 in
  List.length mem = PosixFio.tmp_size /\
  size (str "a/Z") <= 98 /\
  PosixFio.ToFileName (fun e => e) mem (str "a/Z") =
    Returns (str "F_612F5A").
Proof.
  cbv zeta.
  assert (Hm : List.length (repeat "x"%byte 200) = PosixFio.tmp_size)
    by reflexivity.
  assert (Hle : size (str "a/Z") <= 98) by (unfold size; simpl; lia).
  split; [exact Hm|]. split; [exact Hle|].
  destruct (PosixFioFacts.ToFileName_result (fun e => e)
              (repeat "x"%byte 200) (str "a/Z") Hm) as (Hok & _).
  exact (proj1 (Hok Hle)).
Defined.

Lemma file_names_are_distinct_witness :
  let mem1 := repeat "x"%byte 200 in
  let mem2 := repeat x00 200 in
  List.length mem1 = PosixFio.tmp_size /\
  List.length mem2 = PosixFio.tmp_size /\
  PosixFio.ToFileName (fun e => e) mem1 (str "a/Z") =
    Returns (str "F_612F5A") /\
  PosixFio.unhex (skipn 2 (str "F_612F5A")) = str "a/Z".
Proof.
  cbv zeta.
  assert (H1 : List.length (repeat "x"%byte 200) = PosixFio.tmp_size)
    by reflexivity.
  assert (H2 : List.length (repeat x00 200) = PosixFio.tmp_size)
    by reflexivity.
  assert (E : PosixFio.ToFileName (fun e => e) (repeat "x"%byte 200)
                (str "a/Z") = Returns (str "F_612F5A"))
    by (vm_compute; reflexivity).
  split; [exact H1|]. split; [exact H2|]. split; [exact E|].
  exact (proj1 (PosixFioFacts.file_names_are_distinct (fun e => e)
                  (repeat "x"%byte 200) (repeat x00 200)
                  (str "a/Z") (str "a/Z") (str "F_612F5A") [] [] H1 H2) E).
Defined.

End Scenarios.
